(** * qsp: the lookup / expand engine of [src/lookup.js]

    A shallow embedding of the two mutually recursive functions [lookup]
    and [expand] that resolve a button's properties through its [is]
    chain and rewrite the [${key}] tokens inside string values.

    Conventions of the embedding.
    - A JavaScript string is a [string]: the UTF-8 bytes of a well-formed
      text.  Every character the token pattern inspects is ASCII, and
      [encodeURIComponent] works on the UTF-8 bytes, so the bytes are all
      the engine can observe.  Strings with unpaired surrogates have no
      counterpart here.
    - A JavaScript object used as a dictionary ([set], [templates],
      [app.setGlobals]) is a [gmap string _] of its own properties;
      properties inherited from [Object.prototype] are not modelled.
    - [undefined] and [null] are both [None]: the source only tests
      them with [??], [?.] and truthiness, which do not tell them apart,
      and a verified configuration holds no [null].
    - The numeric [set] / [setList] keys are the numbers a token can
      denote: the doubles nearest to a non-negative integer, and
      [Infinity].
    - A call either returns, throws, or runs out of the recursion budget
      that stands for JavaScript's unbounded recursion: [outcome].
    - The [Set] handed around as [seen] is one mutable object; it is
      threaded through the calls as explicit state. *)

From Stdlib Require Import NArith ZArith Ascii String DecimalString List Lia.
From stdpp Require Import base option gmap strings list.

Local Open Scope string_scope.
Local Open Scope N_scope.

(** ** Characters and strings *)

Definition chr (c : ascii) : string := String c EmptyString.

(** [\w] of a JavaScript regular expression without the [u] and [i]
    flags: [A-Za-z0-9_]. *)
Definition is_word_char (c : ascii) : bool :=
  let n := N_of_ascii c in
  ((48 <=? n) && (n <=? 57)) || ((65 <=? n) && (n <=? 90))
  || ((97 <=? n) && (n <=? 122)) || (n =? 95).

Definition is_backslash (c : ascii) : bool := N_of_ascii c =? 92.

(** The double quote character. *)
Definition dquote : ascii := ascii_of_N 34.

(** The longest prefix of [s] whose characters satisfy [p], and the rest. *)
Fixpoint span (p : ascii -> bool) (s : string) : string * string :=
  match s with
  | EmptyString => (EmptyString, EmptyString)
  | String c s' =>
      if p c then let '(a, b) := span p s' in (String c a, b)
      else (EmptyString, s)
  end.

Fixpoint repeat_string (n : nat) (s : string) : string :=
  match n with O => EmptyString | S n' => s ++ repeat_string n' s end.

(** ** The token pattern [/\$(\\+)?\{((?:(\w+):)?(\w+))\}/g]

    One match of the pattern, with the arguments [replaceAll] hands to
    its callback: the matched text and the four capture groups.  A group
    that did not take part in the match is [undefined] ([None]). *)
Record token := {
  t_match : string;          (* match *)
  t_slash : option string;   (* (\\+)?  *)
  t_body  : string;          (* ((?:(\w+):)?(\w+)) *)
  t_fn    : option string;   (* (\w+) before the colon *)
  t_key   : string           (* the last (\w+) *)
}.

Definition mk_token (sl : string) (fn : option string) (k : string) : token :=
  let body := match fn with Some f => f ++ ":" ++ k | None => k end in
  {| t_match := "$" ++ sl ++ "{" ++ body ++ "}";
     t_slash := match sl with EmptyString => None | _ => Some sl end;
     t_body := body; t_fn := fn; t_key := k |}.

(** The body of a token, matched at the start of [s] (just after the
    opening brace).  No character of [\w] is a colon or a brace, so the
    greedy [\w+] never has to give characters back: the first word is
    either followed by [:word}] (transform and key) or by [}] (key
    alone), or there is no match here. *)
Definition match_body (s : string) : option (option string * string) :=
  let '(w1, r1) := span is_word_char s in
  match w1 with
  | EmptyString => None
  | _ =>
      match r1 with
      | String ":" r2 =>
          let '(w2, r3) := span is_word_char r2 in
          match w2, r3 with
          | String _ _, String "}" _ => Some (Some w1, w2)
          | _, _ => None
          end
      | String "}" _ => Some (None, w1)
      | _ => None
      end
  end.

(** The pattern anchored at the start of [s]. *)
Definition match_at (s : string) : option token :=
  match s with
  | String "$" r =>
      let '(sl, r1) := span is_backslash r in
      match r1 with
      | String "{" r2 =>
          match match_body r2 with
          | Some (fn, k) => Some (mk_token sl fn k)
          | None => None
          end
      | _ => None
      end
  | _ => None
  end.

(** What [replaceAll] sees: literal characters and non-overlapping
    matches, found left to right. *)
Inductive segment :=
| SLit (c : ascii)
| STok (t : token).

(** [skip] counts the characters of the current match still to be
    passed over before the search resumes. *)
Fixpoint segments (s : string) (skip : nat) : list segment :=
  match s with
  | EmptyString => []
  | String c s' =>
      match skip with
      | S k => segments s' k
      | O =>
          match match_at s with
          | Some t => STok t :: segments s' (Nat.pred (String.length (t_match t)))
          | None => SLit c :: segments s' 0
          end
      end
  end.

(** ** Numbers as token keys

    [Number(mKey)] is applied to a string of [\w] characters only, so it
    never sees a sign, a decimal point or white space: what it can return
    is [NaN], [Infinity], or the double nearest to a non-negative
    integer.  [jsnum] holds the last two; [NaN] is [None]. *)
Inductive jsnum :=
| Fin (n : N)
| Infinity.

(** Round-to-nearest, ties-to-even, of a non-negative integer to binary64. *)
Definition round_double (m : N) : jsnum :=
  if m <? 2 ^ 53 then Fin m
  else
    let e := N.log2 m - 52 in
    let q := N.shiftr m e in
    let r := N.land m (N.ones e) in
    let half := N.shiftl 1 (e - 1) in
    let q' := if (half <? r) || ((r =? half) && N.odd q) then q + 1 else q in
    let v := N.shiftl q' e in
    if 2 ^ 1024 <=? v then Infinity else Fin v.

Definition digit_value (base : N) (c : ascii) : option N :=
  let n := N_of_ascii c in
  let d := if (48 <=? n) && (n <=? 57) then Some (n - 48)
           else if (97 <=? n) && (n <=? 102) then Some (n - 87)
           else if (65 <=? n) && (n <=? 70) then Some (n - 55)
           else None in
  match d with
  | Some v => if v <? base then Some v else None
  | None => None
  end.

Fixpoint digits_value (base : N) (acc : N) (s : string) : option N :=
  match s with
  | EmptyString => Some acc
  | String c s' =>
      match digit_value base c with
      | Some d => digits_value base (acc * base + d) s'
      | None => None
      end
  end.

(** A non-empty run of digits in [base]. *)
Definition parse_digits (base : N) (s : string) : option N :=
  match s with
  | EmptyString => None
  | _ => digits_value base 0 s
  end.

Definition is_digit (c : ascii) : bool :=
  let n := N_of_ascii c in (48 <=? n) && (n <=? 57).

(** [m * 10^x] rounded; a non-zero [m] with [x >= 400] is above every
    finite double, which spares computing the power. *)
Definition scale10 (m x : N) : jsnum :=
  if m =? 0 then Fin 0
  else if 400 <=? x then Infinity
  else round_double (m * 10 ^ x).

(** [Number(s)] for [s] made of [\w] characters (StringToNumber of
    ECMAScript with correct rounding, as the engines implement it):
    [Infinity], a hexadecimal, octal or binary literal, or decimal
    digits with an optional unsigned exponent; anything else is [NaN]. *)
Definition Number (s : string) : option jsnum :=
  match s with
  | "Infinity" => Some Infinity
  | String "0" (String "x" r) | String "0" (String "X" r) =>
      round_double <$> parse_digits 16 r
  | String "0" (String "o" r) | String "0" (String "O" r) =>
      round_double <$> parse_digits 8 r
  | String "0" (String "b" r) | String "0" (String "B" r) =>
      round_double <$> parse_digits 2 r
  | _ =>
      let '(m, r) := span is_digit s in
      match parse_digits 10 m, r with
      | Some mv, EmptyString => Some (round_double mv)
      | Some mv, String "e" r' | Some mv, String "E" r' =>
          scale10 mv <$> parse_digits 10 r'
      | _, _ => None
      end
  end.

(** [number(x)]: [x] unless it is [NaN]; on the result of [Number] this
    is the identity on [option jsnum]. *)
Definition number (x : option jsnum) : option jsnum := x.

Definition dec (n : N) : string := NilEmpty.string_of_uint (N.to_uint n).

Fixpoint strip_zeros_rev (s : list ascii) : list ascii :=
  match s with
  | "0"%char :: s' => strip_zeros_rev s'
  | _ => s
  end.

Definition strip_trailing_zeros (s : string) : string :=
  string_of_list_ascii (rev (strip_zeros_rev (rev (list_ascii_of_string s)))).

(** The decimal value with the fewest significant digits that still
    rounds to the double [n] (Number::toString picks its digits so):
    tried with [k = 1, 2, ...] significant digits; of the two neighbours
    of [n] with [k] digits the nearer one wins, the even one on a tie. *)
Fixpoint shortest_from (n : N) (digits : nat) (k : nat) (tries : nat) : N :=
  match tries with
  | O => n
  | S tries' =>
      let p := 10 ^ N.of_nat (digits - k) in
      let lo := (n / p) * p in
      let hi := lo + p in
      let ok v := match round_double v with Fin w => w =? n | Infinity => false end in
      match ok lo, ok hi with
      | true, true =>
          if n - lo <? hi - n then lo
          else if hi - n <? n - lo then hi
          else if N.even (n / p) then lo else hi
      | true, false => lo
      | false, true => hi
      | false, false => shortest_from n digits (S k) tries'
      end
  end.

(** [String(x)] for the numbers of [jsnum]. *)
Definition Number_toString (x : jsnum) : string :=
  match x with
  | Infinity => "Infinity"
  | Fin n =>
      if n <? 2 ^ 53 then dec n
      else
        let v := shortest_from n (String.length (dec n)) 1 17 in
        let ds := dec v in
        let nd := String.length ds in
        if (nd <=? 21)%nat then ds
        else
          match strip_trailing_zeros ds with
          | String d EmptyString => chr d ++ "e+" ++ dec (N.of_nat (nd - 1))
          | String d rest => chr d ++ "." ++ rest ++ "e+" ++ dec (N.of_nat (nd - 1))
          | EmptyString => ds
          end
  end.

(** A [set] / [setList] key ([setKey]): a number or a string. *)
Inductive set_key :=
| KNum (n : jsnum)
| KStr (s : string).

(** [number(Number(mKey)) ?? string(mKey) ?? ''] *)
Definition token_key (mKey : string) : set_key :=
  match number (Number mKey) with
  | Some n => KNum n
  | None => KStr mKey
  end.

(** ToPropertyKey, for reading a dictionary with a [key]. *)
Definition property_name (k : set_key) : string :=
  match k with
  | KStr s => s
  | KNum n => Number_toString n
  end.

Global Instance jsnum_eq_dec : EqDecision jsnum.
Proof. solve_decision. Defined.

Global Instance set_key_eq_dec : EqDecision set_key.
Proof. solve_decision. Defined.

Global Instance jsnum_countable : Countable jsnum.
Proof.
  refine (inj_countable' (fun x => match x with Fin n => Some n | Infinity => None end)
            (fun o => match o with Some n => Fin n | None => Infinity end) _).
  by intros [].
Defined.

Global Instance set_key_countable : Countable set_key.
Proof.
  refine (inj_countable' (fun k => match k with KNum n => inl n | KStr s => inr s end)
            (fun x => match x with inl n => KNum n | inr s => KStr s end) _).
  by intros [].
Defined.

(** ** The transform functions *)

Definition hex_digit (upper : bool) (n : N) : ascii :=
  ascii_of_N (if n <? 10 then 48 + n else (if upper then 55 else 87) + n).

(** The characters [encodeURIComponent] leaves alone:
    [A-Z a-z 0-9 - _ . ! ~ * ' ( )]. *)
Definition uri_unreserved (c : ascii) : bool :=
  let n := N_of_ascii c in
  ((48 <=? n) && (n <=? 57)) || ((65 <=? n) && (n <=? 90))
  || ((97 <=? n) && (n <=? 122))
  || (n =? 45) || (n =? 95) || (n =? 46) || (n =? 33) || (n =? 126)
  || (n =? 42) || (n =? 39) || (n =? 40) || (n =? 41).

Fixpoint encodeURIComponent (s : string) : string :=
  match s with
  | EmptyString => EmptyString
  | String c s' =>
      let n := N_of_ascii c in
      (if uri_unreserved c then chr c
       else String "%" (String (hex_digit true (n / 16)) (chr (hex_digit true (n mod 16)))))
      ++ encodeURIComponent s'
  end.

(** One character of QuoteJSONString. *)
Definition json_escape (c : ascii) : string :=
  let n := N_of_ascii c in
  if n =? 8 then "\b" else if n =? 9 then "\t" else if n =? 10 then "\n"
  else if n =? 12 then "\f" else if n =? 13 then "\r"
  else if n =? 34 then String "\" (chr c)
  else if n =? 92 then "\\"
  else if n <? 32 then
    "\u00" ++ String (hex_digit false (n / 16)) (chr (hex_digit false (n mod 16)))
  else chr c.

Fixpoint json_escape_all (s : string) : string :=
  match s with
  | EmptyString => EmptyString
  | String c s' => json_escape c ++ json_escape_all s'
  end.

(** [JSON.stringify] of a string. *)
Definition JSON_stringify (s : string) : string :=
  String dquote (json_escape_all s ++ chr dquote).

(** ** The configuration data ([types.ts]) *)

Record ArgumentSchema := {
  arg_key : string;
  arg_info : string;
  arg_values : option (list string)
}.

Record HttpCallRequest := {
  method : string;
  url : string;
  headers : option (gmap string string);
  body : option string
}.

(** [PanelButton].  An optional property that is missing is [None].
    The numbers ([repeat], [repeatInitial], [column]) are only carried
    around by the engine, never inspected. *)
Record PanelButton := {
  text : string;
  is_ : option string;                      (* is *)
  set : option (gmap string string);
  setList : option (list string);
  arguments : option (list ArgumentSchema);
  repeat : option Z;
  repeatInitial : option Z;
  column : option Z;
  showOutput : option bool;
  request : option HttpCallRequest;
  proxyUrl : option string;
  command : option string;
  commandUrl : option string;
  isPersisted : option bool
}.

(** [keyof PanelButton] *)
Inductive prop_key :=
| Ptext | Pis | Pset | PsetList | Parguments | Prepeat | PrepeatInitial
| Pcolumn | PshowOutput | Prequest | PproxyUrl | Pcommand | PcommandUrl
| PisPersisted.

(** The values a property can hold. *)
Inductive value :=
| VBool (b : bool)
| VNum (z : Z)
| VStr (s : string)
| VDict (m : gmap string string)
| VList (l : list string)
| VArgs (l : list ArgumentSchema)
| VRequest (r : HttpCallRequest).

(** [button[key]]; [None] is [undefined]. *)
Definition get_prop (b : PanelButton) (k : prop_key) : option value :=
  match k with
  | Ptext => Some (VStr (text b))
  | Pis => VStr <$> is_ b
  | Pset => VDict <$> set b
  | PsetList => VList <$> setList b
  | Parguments => VArgs <$> arguments b
  | Prepeat => VNum <$> repeat b
  | PrepeatInitial => VNum <$> repeatInitial b
  | Pcolumn => VNum <$> column b
  | PshowOutput => VBool <$> showOutput b
  | Prequest => VRequest <$> request b
  | PproxyUrl => VStr <$> proxyUrl b
  | Pcommand => VStr <$> command b
  | PcommandUrl => VStr <$> commandUrl b
  | PisPersisted => VBool <$> isPersisted b
  end.

Record PanelConfig := {
  templates : option (gmap string PanelButton)
}.

(** The part of [ClientApp] the engine reads.  [types.ts] declares no
    [setGlobals] member, yet [lookup] reads [app.setGlobals]: [None] is an
    app object as declared (the member is [undefined]), [Some g] one that
    carries the global fallback map [g]. *)
Record ClientApp := {
  config : PanelConfig;
  setGlobals : option (gmap string string)
}.

(** ** Results of a call *)

Inductive exn :=
| TypeError.   (* reading a property of undefined *)

Inductive outcome (A : Type) :=
| Val (a : A)
| Throw (e : exn)
| Diverge.     (* the recursion budget ran out *)

Arguments Val {A} a.
Arguments Throw {A} e.
Arguments Diverge {A}.

(** Sequencing: an exception or an exhausted budget cuts the rest short. *)
Global Instance outcome_bind : MBind outcome := fun A B f m =>
  match m with
  | Val a => f a
  | Throw e => Throw e
  | Diverge => Diverge
  end.

Global Instance outcome_ret : MRet outcome := fun A a => Val a.

(** The contents of the [Set] called [seen]. *)
Abbreviation seen_set := (gset set_key).

(** ** [lookup] and [expand] *)

(** [button?.is ? (templates?.[button.is] ?? null) : null]; the empty
    string is falsy.  [templates] is read as the map of its own
    properties (see [reads_own_template]). *)
Definition parent_of (app : ClientApp) (button : option PanelButton)
  : option PanelButton :=
  match button with
  | Some b =>
      match is_ b with
      | Some name =>
          if decide (name = "") then None
          else match templates (config app) with
               | Some ts => ts !! name
               | None => None
               end
      | None => None
      end
  | None => None
  end.

(** [setList[n]] for a numeric key: the element at index [n] if there is
    one. *)
Fixpoint list_at (l : list string) (n : N) : option string :=
  match l with
  | [] => None
  | x :: l' => if n =? 0 then Some x else list_at l' (N.pred n)
  end.

Definition setList_at (l : list string) (n : jsnum) : option string :=
  match n with
  | Fin i => list_at l i
  | Infinity => None
  end.

(** Which of [fromButton], [fromList], [fromMap] holds (at most one
    does), with the button and the key it applies to. *)
Inductive source :=
| FromButton (b : PanelButton) (k : prop_key)
| FromList (b : PanelButton) (n : jsnum)
| FromMap (b : PanelButton) (s : string)
| FromNothing.

Definition source_of (button : option PanelButton) (key : option prop_key)
    (setKey : option set_key) : source :=
  match button, key, setKey with
  | Some b, Some k, None => FromButton b k
  | Some b, None, Some (KNum n) => FromList b n
  | Some b, None, Some (KStr s) => FromMap b s
  | _, _, _ => FromNothing
  end.

(** The type of [lookup], for [expand] to call back into.  The result is
    the value ([None] is [null]) and the contents of [seen] afterwards. *)
Definition lookup_fn : Type :=
  ClientApp -> option PanelButton -> option prop_key -> option set_key -> bool ->
  option seen_set -> outcome (option value * option seen_set).

Definition string_of_value (v : value) : option string :=
  match v with VStr s => Some s | _ => None end.

(** A string is truthy unless it is empty. *)
Definition truthy (s : string) : bool :=
  match s with EmptyString => false | _ => true end.

(** The callback of [replaceAll] in [expand].  [seen.add(key)] is the
    set handed to [lookup]; [after] is that same set as [lookup] leaves
    it, from which [seen.delete(key)] removes the key.  With [key] null
    and [setKey] given, [lookup] returns a string or null
    ([lookup_set_string_or_null]), which is all [value] is matched
    against.  The helper [string(x)] of [lib.js] returns [x] when it is
    a string: on [match], [mBody] and [mKey], which always are, it is the
    identity. *)
Definition replace_token (lk : lookup_fn) (app : ClientApp)
    (button : option PanelButton) (t : token) (seen : seen_set)
  : outcome (string * seen_set) :=
  let body := t_body t in
  let key := token_key (t_key t) in
  match t_slash t with
  | Some (String c slash') =>
      Val ("$" ++ slash' ++ "{" ++ body ++ "}", seen)
  | _ =>
      if decide (key ∈ seen) then Val (t_match t, seen)
      else
        '(value, after) ← lk app button None (Some key) false
                            (Some ({[key]} ∪ seen));
        let seen' := default ({[key]} ∪ seen) after ∖ {[key]} in
        match value ≫= string_of_value with
        | Some v =>
            if truthy v && bool_decide (t_fn t = Some "urlencode")
            then Val (encodeURIComponent v, seen')
            else if truthy v && bool_decide (t_fn t = Some "jsonString")
            then Val (JSON_stringify v, seen')
            else Val (v, seen')
        | None => Val (t_match t, seen')
        end
  end.

(** [replaceAll]: literal text is copied, each match is replaced by
    what the callback returns, left to right. *)
Fixpoint replace_all (f : token -> seen_set -> outcome (string * seen_set))
    (segs : list segment) (seen : seen_set) : outcome (string * seen_set) :=
  match segs with
  | [] => Val (EmptyString, seen)
  | SLit c :: rest =>
      '(out, seen') ← replace_all f rest seen;
      Val (String c out, seen')
  | STok t :: rest =>
      '(r, seen1) ← f t seen;
      '(out, seen2) ← replace_all f rest seen1;
      Val (r ++ out, seen2)
  end.

Definition expand_with (lk : lookup_fn) (app : ClientApp)
    (button : option PanelButton) (text : string) (seen : seen_set)
  : outcome (string * seen_set) :=
  replace_all (replace_token lk app button) (segments text 0) seen.

(** [setKey ?? ''] *)
Definition seed_key (setKey : option set_key) : set_key :=
  default (KStr "") setKey.

(** [lookup], with a budget for its recursion.  [button.set],
    [button.setList] and [app.setGlobals] are read as the maps of their
    own properties (see [plain_key]). *)
Fixpoint lookup (fuel : nat) (app : ClientApp) (button : option PanelButton)
    (key : option prop_key) (setKey : option set_key) (isLookup : bool)
    (seen : option seen_set) {struct fuel}
  : outcome (option value * option seen_set) :=
  match fuel with
  | O => Diverge
  | S fuel' =>
      let parent := parent_of app button in
      let from_set (k : set_key) (own : option string) :=
        match own with
        | Some v => Val (Some (VStr v), seen)
        | None =>
            '(inherited, seen1) ← lookup fuel' app parent None (Some k) true seen;
            match inherited with
            | Some v => Val (Some v, seen1)
            | None =>
                match setGlobals app with
                | Some g => Val (VStr <$> g !! property_name k, seen1)
                | None => Throw TypeError
                end
            end
        end in
      '(result, seen1) ←
        match source_of button key setKey with
        | FromMap b s => from_set (KStr s) (set b ≫= (.!! s))
        | FromList b n => from_set (KNum n) (setList b ≫= (fun l => setList_at l n))
        | FromButton b k =>
            match get_prop b k with
            | Some v => Val (Some v, seen)
            | None => lookup fuel' app parent key None true seen
            end
        | FromNothing => Val (None, seen)
        end;
      match isLookup, result with
      | false, Some (VStr s) =>
          '(out, after) ← expand_with (lookup fuel') app button s
                            (default {[seed_key setKey]} seen1);
          Val (Some (VStr out), (fun _ => after) <$> seen1)
      | _, _ => Val (result, seen1)
      end
  end.

Definition expand (fuel : nat) (app : ClientApp) (button : option PanelButton)
    (text : string) (seen : seen_set) : outcome (string * seen_set) :=
  expand_with (lookup fuel) app button text seen.

(** [expand] applied [n] times in a row, each pass on the output of the
    one before. *)
Fixpoint expand_passes (n : nat) (fuel : nat) (app : ClientApp)
    (button : option PanelButton) (text : string) (seen : seen_set)
  : outcome (string * seen_set) :=
  match n with
  | O => Val (text, seen)
  | S n' =>
      '(out, seen') ← expand fuel app button text seen;
      expand_passes n' fuel app button out seen'
  end.

(** ** Vocabulary of the statements *)

(** The text of a token whose brace is preceded by [n] backslashes:
    [$], the backslashes, and the body (transform prefix and key) in
    braces. *)
Definition token_body (fn : option string) (k : string) : string :=
  match fn with Some f => f ++ ":" ++ k | None => k end.

Definition escaped_token (n : nat) (fn : option string) (k : string) : string :=
  "$" ++ repeat_string n "\" ++ "{" ++ token_body fn k ++ "}".

(** A token that is not escaped. *)
Definition token_text (fn : option string) (k : string) : string :=
  escaped_token 0 fn k.

(** No character of [s] is a dollar sign. *)
Fixpoint no_dollar (s : string) : bool :=
  match s with
  | EmptyString => true
  | String c s' => negb (Ascii.eqb c "$") && no_dollar s'
  end.

(** Every character of [s] satisfies [p]. *)
Fixpoint all_chars (p : ascii -> bool) (s : string) : bool :=
  match s with
  | EmptyString => true
  | String c s' => p c && all_chars p s'
  end.

(** A non-empty string of [\w] characters. *)
Definition word (s : string) : bool :=
  match s with
  | EmptyString => false
  | _ => all_chars is_word_char s
  end.

Definition word_opt (fn : option string) : bool :=
  match fn with Some f => word f | None => true end.

(** The records reached from a button by following [is], nearest first.
    A cyclic configuration has no such list. *)
Inductive is_chain (app : ClientApp) : option PanelButton -> list PanelButton -> Prop :=
| chain_end : is_chain app None []
| chain_step b l :
    is_chain app (parent_of app (Some b)) l -> is_chain app (Some b) (b :: l).

(** [record.set[key]] or [record.setList[index]], by the kind of key,
    as an own property (see [plain_key]). *)
Definition own_set_value (b : PanelButton) (k : set_key) : option string :=
  match k with
  | KStr s => set b ≫= (.!! s)
  | KNum n => setList b ≫= (fun l => setList_at l n)
  end.

(** ** Names that every object inherits

    [record.set], [app.setGlobals] and [templates] are plain objects:
    read with a name they do not hold themselves, they answer with the
    member of [Object.prototype] of that name, if there is one
    (ECMAScript 2023, Annex B included).  The maps of this model hold
    the own properties; a statement that rests on a name being absent
    from a map is made for the names below excluded. *)
Definition Object_prototype_names : list string :=
  ["constructor"; "hasOwnProperty"; "isPrototypeOf"; "propertyIsEnumerable";
   "toLocaleString"; "toString"; "valueOf"; "__proto__";
   "__defineGetter__"; "__defineSetter__"; "__lookupGetter__";
   "__lookupSetter__"].

(** A key under which a dictionary inherits nothing.  A numeric key
    reads a property whose name is a number, and no object inherits
    one. *)
Definition plain_key (k : set_key) : Prop :=
  match k with
  | KStr s => s ∉ Object_prototype_names
  | KNum _ => True
  end.

(** [templates?.[r.is]] is a template of the configuration or
    undefined: [r.is] names an own template, or names nothing that
    [templates] inherits. *)
Definition reads_own_template (app : ClientApp) (r : PanelButton) : Prop :=
  match is_ r, templates (config app) with
  | Some name, Some ts => is_Some (ts !! name) \/ name ∉ Object_prototype_names
  | _, _ => True
  end.

(** The first record of a chain that defines what [f] reads. *)
Fixpoint first_defined {A} (f : PanelButton -> option A) (l : list PanelButton)
  : option A :=
  match l with
  | [] => None
  | b :: l' => match f b with Some v => Some v | None => first_defined f l' end
  end.

(** The precedence of the specification for a [set] / [setList] key:
    the nearest record of the chain that has it, else the global
    fallback map, else null. *)
Definition set_precedence (chain : list PanelButton) (g : gmap string string)
    (k : set_key) : option string :=
  match first_defined (fun b => own_set_value b k) chain with
  | Some v => Some v
  | None => g !! property_name k
  end.

(** What an internal [set] / [setList] lookup returns on a chain: the
    nearest value; failing that, what the global map holds, provided the
    app has one. *)
Definition chain_set_result (app : ClientApp) (l : list PanelButton)
    (k : set_key) (seen : option seen_set)
  : outcome (option value * option seen_set) :=
  match first_defined (fun b => own_set_value b k) l with
  | Some v => Val (Some (VStr v), seen)
  | None =>
      match setGlobals app with
      | Some g => Val (VStr <$> g !! property_name k, seen)
      | None => Throw TypeError
      end
  end.

(** A call finishes when it returns or throws. *)
Definition finishes {A} (o : outcome A) : Prop := o <> Diverge.

(** [lk'] agrees with [lk] wherever [lk] finishes. *)
Definition lookup_le (lk lk' : lookup_fn) : Prop :=
  forall app button key setKey isLookup seen,
    finishes (lk app button key setKey isLookup seen) ->
    lk' app button key setKey isLookup seen = lk app button key setKey isLookup seen.

(** [lk] hands [seen] back with the contents it was given. *)
Definition keeps_seen (lk : lookup_fn) : Prop :=
  forall app button key setKey isLookup seen v after,
    lk app button key setKey isLookup seen = Val (v, after) -> after = seen.

(** The keys of the tokens of a text. *)
Fixpoint keys_of_segments (segs : list segment) : seen_set :=
  match segs with
  | [] => ∅
  | SLit _ :: rest => keys_of_segments rest
  | STok t :: rest => {[token_key (t_key t)]} ∪ keys_of_segments rest
  end.

Definition keys_of_text (s : string) : seen_set :=
  keys_of_segments (segments s 0).

(** Every string a [set] / [setList] lookup on the chain can return: the
    values of the records' [set] and [setList], and those of the global
    map. *)
Definition record_values (b : PanelButton) : list string :=
  match set b with Some m => (map_to_list m).*2 | None => [] end
  ++ default [] (setList b).

Definition stored_values (l : list PanelButton) (g : gmap string string)
  : list string :=
  (l ≫= record_values) ++ (map_to_list g).*2.

(** The keys that the tokens of these strings mention. *)
Definition stored_keys (l : list PanelButton) (g : gmap string string)
  : seen_set :=
  ⋃ (keys_of_text <$> stored_values l g).

(** A record without its [set], and one without its [setList]. *)
Definition without_set (b : PanelButton) : PanelButton :=
  {| text := text b; is_ := is_ b; set := None; setList := setList b;
     arguments := arguments b; repeat := repeat b;
     repeatInitial := repeatInitial b; column := column b;
     showOutput := showOutput b; request := request b;
     proxyUrl := proxyUrl b; command := command b;
     commandUrl := commandUrl b; isPersisted := isPersisted b |}.

Definition without_setList (b : PanelButton) : PanelButton :=
  {| text := text b; is_ := is_ b; set := set b; setList := None;
     arguments := arguments b; repeat := repeat b;
     repeatInitial := repeatInitial b; column := column b;
     showOutput := showOutput b; request := request b;
     proxyUrl := proxyUrl b; command := command b;
     commandUrl := commandUrl b; isPersisted := isPersisted b |}.

Definition map_templates (f : PanelButton -> PanelButton) (app : ClientApp)
  : ClientApp :=
  {| config :=
       {| templates :=
            match templates (config app) with
            | Some ts => Some (f <$> ts)
            | None => None
            end |};
     setGlobals := setGlobals app |}.

(** ** Fixtures: the configurations of the repository's tests and of the
    specification's examples *)

(** A button with the given [text], [is], [set], [setList], [proxyUrl]
    and [command], and no other property. *)
Definition button_of (t : string) (i : option string)
    (s : option (list (string * string))) (l : option (list string))
    (p c : option string) : PanelButton :=
  {| text := t; is_ := i; set := list_to_map <$> s; setList := l;
     arguments := None; repeat := None; repeatInitial := None;
     column := None; showOutput := None; request := None;
     proxyUrl := p; command := c; commandUrl := None; isPersisted := None |}.

(** [makeApp(templates)] of the test suite: an app as [types.ts] declares
    it, without [setGlobals]. *)
Definition makeApp (ts : list (string * PanelButton)) : ClientApp :=
  {| config := {| templates := Some (list_to_map ts) |}; setGlobals := None |}.

(** The same app carrying a global fallback map. *)
Definition with_globals (g : gmap string string) (app : ClientApp) : ClientApp :=
  {| config := config app; setGlobals := Some g |}.

(** 'should handle simple set and set-list lookup' *)
Definition button_s1 : PanelButton :=
  button_of "s1" None (Some [("a", "s1-a")]) (Some ["x"; "y"; "z"]) None None.

(** 'should perform simple expansions' *)
Definition button_simple : PanelButton :=
  button_of "main1" None
    (Some [("z", "main1-z"); ("y", "s s"); ("x", ":${y}:");
           ("i", "i: ${jsonString:j}"); ("j", "x" ++ chr dquote ++ "y")])
    (Some ["main1-0"; ":${0}:"])
    (Some "hello ${z} ${0} ${a} ${4} $\{z} $\\\{0}")
    (Some "t: ${urlencode:y}").

(** 'should handle inherited set and set-list lookup' *)
Definition app_inherited : ClientApp :=
  makeApp
    [("a", button_of "a" None (Some [("a", "a-a")])
             (Some ["a-0"; "a-1"; "a-2"]) None None);
     ("bA", button_of "bA" (Some "bB") (Some [("a", "bA-a")])
              (Some ["bA-0"; "bA-1"]) None None);
     ("bB", button_of "bB" None (Some [("a", "bB-a"); ("b", "bB-b")])
              (Some ["bB-0"; "bB-1"; "bB-2"]) None None)].

Definition button_main2 : PanelButton :=
  button_of "main2" (Some "bA") (Some [("z", "main2-z")]) (Some ["main2-0"])
    None None.

(** 'should handle inherited expansions' *)
Definition app_expansions : ClientApp :=
  makeApp
    [("a", button_of "a" (Some "b") (Some [("b", "[${y}]")])
             (Some ["a0"; "a1:${2}"]) None None);
     ("b", button_of "b" None (Some [("c", "{${b}}"); ("d", "(${z})")])
             (Some ["b0"; "b1"; "b2:${z}"]) None None)].

Definition button_expansions : PanelButton :=
  button_of "main1" (Some "a")
    (Some [("x", "${y}-${b}-${c}-${d}"); ("y", ":${z}:"); ("z", "!")])
    (Some ["${z}-${1}-${2}"]) None None.

(** The string a call returned, if it returned one. *)
Definition returned_string {A} (o : outcome (option value * A)) : outcome (option string) :=
  '(v, _) ← o; Val (v ≫= string_of_value).

(** 'should prevent infinite recursion' *)
Definition app_recursion : ClientApp :=
  makeApp
    [("a", button_of "a" (Some "b")
             (Some [("a", "a${y}a"); ("aa", "aa${b}aa")]) None None None);
     ("b", button_of "b" None (Some [("b", "b${z}b")]) None None None)].

Definition button_recursion : PanelButton :=
  button_of "main1" (Some "a")
    (Some [("x", "x${x}x"); ("y", "y${a}y"); ("z", "z${aa}z")]) None
    (Some "url:${z}") None.

(** [B.set = {a: "x"}], [B.is = T], [T.set = {a: "y", b: "z"}] *)
Definition template_T : PanelButton :=
  button_of "T" None (Some [("a", "y"); ("b", "z")]) None None None.

Definition app_BT : ClientApp := makeApp [("T", template_T)].

Definition button_B : PanelButton :=
  button_of "B" (Some "T") (Some [("a", "x")]) None None None.

(** A button whose variable [a] is the empty string. *)
Definition button_empty_value : PanelButton :=
  button_of "e" None (Some [("a", "")]) None None None.





(** A template whose [proxyUrl] mentions [${a}], and a button that
    inherits it while setting [a] differently. *)
Definition template_context : PanelButton :=
  button_of "T" None (Some [("a", "2")]) None (Some "u${a}") None.

Definition app_context : ClientApp := makeApp [("T", template_context)].

Definition button_context : PanelButton :=
  button_of "B" (Some "T") (Some [("a", "1")]) None None None.

(** A template that inherits from itself. *)
Definition template_cyclic : PanelButton :=
  button_of "A" (Some "A") None None None None.

Definition app_cyclic : ClientApp := makeApp [("A", template_cyclic)].

(** [set["0"]] and [setList[0]] side by side. *)
Definition button_zero : PanelButton :=
  button_of "n" None (Some [("0", "S"); ("urlencode:0", "B")]) (Some ["L"]) None None.

(** ** Further vocabulary: ancestors along [is] *)

(** The record [n] steps up the [is] chain, if the chain is that long. *)
Fixpoint ancestor (app : ClientApp) (n : nat) (button : option PanelButton)
  : option PanelButton :=
  match n with
  | O => button
  | S n' => ancestor app n' (parent_of app button)
  end.

(** The literal characters of a string, as [replaceAll] copies them. *)
Fixpoint literal_segments (s : string) : list segment :=
  match s with
  | EmptyString => []
  | String c s' => SLit c :: literal_segments s'
  end.

(** ** Further vocabulary: the forms of a numeric key *)

(** The decimal form of [Number]: digits with an optional exponent. *)
Definition Number_decimal (s : string) : option jsnum :=
  let '(m, r) := span is_digit s in
  match parse_digits 10 m, r with
  | Some mv, EmptyString => Some (round_double mv)
  | Some mv, String "e" r' | Some mv, String "E" r' =>
      scale10 mv <$> parse_digits 10 r'
  | _, _ => None
  end.

(** [s] starts like a hexadecimal, octal or binary literal: [0x], [0o],
    [0b], in either case. *)
Definition has_radix_prefix (s : string) : bool :=
  match s with
  | String c1 (String c2 _) =>
      (N_of_ascii c1 =? 48)
      && ((N_of_ascii c2 =? 120) || (N_of_ascii c2 =? 88)
          || (N_of_ascii c2 =? 111) || (N_of_ascii c2 =? 79)
          || (N_of_ascii c2 =? 98) || (N_of_ascii c2 =? 66))
  | _ => false
  end.

(** * The server's [expandArgument] ([qsp.js])

    The same token pattern and the same escape rule as [expand], but one
    pass over a flat argument map: no inheritance, no visited set, no
    numeric keys. *)

(** [replaceAll] with a callback that keeps no state. *)
Fixpoint replace_each (f : token -> outcome string) (segs : list segment)
  : outcome string :=
  match segs with
  | [] => Val EmptyString
  | SLit c :: rest =>
      out ← replace_each f rest;
      Val (String c out)
  | STok t :: rest =>
      r ← f t;
      out ← replace_each f rest;
      Val (r ++ out)
  end.

(** The callback of [expandArgument].

    - [args] is a plain object whose own properties are strings, so
      [args[k]] is the own value, or else what [Object.prototype] has
      under that name ([constructor], [toString], ...): [inherited k]
      is the text of that member, for the names that have one.  Such a
      member is not a string: [replaceAll] turns it into its text, and
      [path.resolve] refuses it.
    - What the [relativePath] branch computes from a string ([decodeURI],
      [path.resolve], [path.join] and the working directory of the
      server process) is the parameter [relativePath]; [decodeURI] can
      throw. *)
Definition argument_token (relativePath : string -> outcome string)
    (inherited : string -> option string)
    (args : gmap string string) (t : token) : outcome string :=
  match t_slash t with
  | Some (String c slash') => Val ("$" ++ slash' ++ "{" ++ t_body t ++ "}")
  | _ =>
      match args !! t_key t, inherited (t_key t) with
      | None, Some member =>
          if bool_decide (t_fn t = Some "relativePath") then Throw TypeError
          else Val member
      | own, _ =>
          let value := default "" own in
          if bool_decide (t_fn t = Some "relativePath") then relativePath value
          else Val value
      end
  end.

(** The text that [args[k] ?? ''] leaves in place of a token without
    prefix. *)
Definition argument_text (inherited : string -> option string)
    (args : gmap string string) (k : string) : string :=
  match args !! k with
  | Some v => v
  | None => default "" (inherited k)
  end.

Definition expandArgument (relativePath : string -> outcome string)
    (inherited : string -> option string)
    (text : string) (args : gmap string string) : outcome string :=
  replace_each (argument_token relativePath inherited args) (segments text 0).

(** * [addToken] ([index.js]) *)

(** [s.includes(d)] *)
Fixpoint includes (s d : string) : bool :=
  String.prefix d s
  || match s with
     | EmptyString => false
     | String _ s' => includes s' d
     end.

(** [value] is a string or null. *)
Definition addToken (url delimiter key : string) (value : option string)
  : string :=
  (url ++ (if includes url delimiter then "&" else delimiter))
  ++ match value with
     | Some v => key ++ "=" ++ encodeURIComponent v
     | None => key
     end.

(** A character [encodeURIComponent] can emit: an unreserved one or the
    percent sign. *)
Definition uri_output_char (c : ascii) : bool :=
  uri_unreserved c || (N_of_ascii c =? 37).

(** * [clamp] ([lib.js])

    On integers that a double holds exactly, as at its call site (an
    index into the list of heading tags).  Every sum and difference is
    rounded to the nearest double ([round_int]; [None] is an infinity).
    [%] is the remainder whose sign follows the dividend and is exact;
    it gives NaN for an infinite dividend or a zero divisor, and the
    dividend itself for an infinite divisor.  A result that is NaN or
    infinite is [None]. *)

(** The double nearest to an integer. *)
Definition round_int (z : Z) : option Z :=
  match round_double (Z.abs_N z) with
  | Fin v => Some (Z.sgn z * Z.of_N v)%Z
  | Infinity => None
  end.

(** [a % n] *)
Definition js_rem (a n : option Z) : option Z :=
  match a, n with
  | Some a', Some n' => if (n' =? 0)%Z then None else Some (Z.rem a' n')
  | Some a', None => Some a'
  | None, _ => None
  end.

Definition clamp (x min max : Z) (wrap : bool) : option Z :=
  let max1 := round_int (max + 1) in
  let offsetX :=
    js_rem (round_int (x - min)) (m ← max1; round_int (m - min)) in
  if wrap
  then o ← offsetX;
       if (o <? 0)%Z then m ← max1; round_int (m + o) else round_int (min + o)
  else Some (Z.max min (Z.min max x)).

(** * The runtime type verifier ([src/type-verifier.js])

    The verifiers read the result of [JSON.parse] and either return it
    typed or throw a [TvError] that names the key path, the expected
    type and the observed value.

    - The data is a [json]: a parsed JSON value, or undefined (what a
      missing property reads as).  Numbers are kept abstract ([num],
      with [num_to_string] for their text in a message): the verifiers
      only test [typeof] and pass the number on.
    - An object is the list of its own properties in the order of
      [Object.keys].
    - Reading a name that is not an own property yields what the value
      inherits ([member]): the length of an array, a method of
      [Array.prototype] or [Object.prototype], or else undefined.  Such
      a method is a [Builtin]; all the verifiers can do with it is
      reject it.  Which names those are, and the text of a number or of
      a method, is the engine's business ([Engine]).
    - A verifier returns ([Verified]), throws a [TvError] ([Rejected]),
      or throws the TypeError of a failed conversion to text inside the
      constructor of [TvError] ([Crashed]). *)

Inductive json (num : Type) :=
| JUndefined
| JNull
| JBool (b : bool)
| JNum (n : num)
| JStr (s : string)
| JArr (l : list (json num))
| JObj (m : list (string * json num)).

Arguments JUndefined {num}.
Arguments JNull {num}.
Arguments JBool {num} b.
Arguments JNum {num} n.
Arguments JStr {num} s.
Arguments JArr {num} l.
Arguments JObj {num} m.

(** What a context can hold: data, or a built-in function, given by its
    text. *)
Inductive js_value (num : Type) :=
| Data (j : json num)
| Builtin (text : string).

Arguments Data {num} j.
Arguments Builtin {num} text.

Class Engine (num : Type) := {
  (** the text of a number inside a template literal *)
  num_to_string : num -> string;
  (** [v[k]] for a name [k] that is not an own property of [v] *)
  member : json num -> string -> js_value num
}.

Section TypeVerifier.

Context {num : Type} `{!Engine num}.

(** [typeof v] *)
Definition typeof (v : js_value num) : string :=
  match v with
  | Data JUndefined => "undefined"
  | Data (JBool _) => "boolean"
  | Data (JNum _) => "number"
  | Data (JStr _) => "string"
  | Data (JNull | JArr _ | JObj _) => "object"
  | Builtin _ => "function"
  end.

(** [m[k]] for an own property. *)
Fixpoint own_property (m : list (string * json num)) (k : string) : option (json num) :=
  match m with
  | [] => None
  | (k', v) :: m' => if String.eqb k' k then Some v else own_property m' k
  end.

(** The text of [j] inside a template literal; [None] when the
    conversion throws a TypeError.

    - An object prints as [[object Object]] through the inherited
      [toString]; an own property of that name is data, not a function,
      and then neither it nor the inherited [valueOf] yields a
      primitive.
    - An array prints its elements separated by commas, with nothing
      for null and undefined. *)
Fixpoint json_to_string (j : json num) : option string :=
  match j with
  | JUndefined => Some "undefined"
  | JNull => Some "null"
  | JBool true => Some "true"
  | JBool false => Some "false"
  | JNum n => Some (num_to_string n)
  | JStr s => Some s
  | JArr l =>
      (fix join (l : list (json num)) : option string :=
         match l with
         | [] => Some ""
         | x :: l' =>
             match match x with
                   | JUndefined | JNull => Some ""
                   | _ => json_to_string x
                   end with
             | Some first =>
                 match l' with
                 | [] => Some first
                 | _ => match join l' with
                        | Some rest => Some (first ++ "," ++ rest)
                        | None => None
                        end
                 end
             | None => None
             end
         end) l
  | JObj m =>
      match own_property m "toString" with
      | Some _ => None
      | None => Some "[object Object]"
      end
  end.

Definition to_string (v : js_value num) : option string :=
  match v with
  | Data j => json_to_string j
  | Builtin text => Some text
  end.

Record IsContext := {
  ctx_key : option string;   (* key?: string *)
  ctx_value : js_value num
}.

Record TvError := {
  err_key : string;
  err_expected : string;
  err_observed : js_value num;
  err_message : string
}.

Inductive checked (T : Type) :=
| Verified (x : T)
| Rejected (e : TvError)
| Crashed.

Arguments Verified {T} x.
Arguments Rejected {T} e.
Arguments Crashed {T}.

Definition checked_bind {A B} (m : checked A) (f : A -> checked B) : checked B :=
  match m with
  | Verified a => f a
  | Rejected e => Rejected e
  | Crashed => Crashed
  end.

(** [new TvError(context, expected)], for an observed value that prints
    as [text]. *)
Definition new_TvError (c : IsContext) (expected text : string) : TvError :=
  {| err_key := default "" (ctx_key c);
     err_expected := expected;
     err_observed := ctx_value c;
     err_message :=
       "At key-path `" ++ default "" (ctx_key c) ++ "`, "
       ++ "expected `" ++ expected ++ "` "
       ++ "but was given `" ++ typeof (ctx_value c) ++ "` (" ++ text ++ ")." |}.

(** [throw new TvError(context, expected)] *)
Definition throw_TvError {T} (c : IsContext) (expected : string) : checked T :=
  match to_string (ctx_value c) with
  | Some text => Rejected (new_TvError c expected text)
  | None => Crashed
  end.

(** A verifier, [IsA<T>]. *)
Definition IsA (T : Type) : Type := IsContext -> checked T.

(** [Array.isArray(v)] *)
Definition is_array (v : js_value num) : bool :=
  match v with Data (JArr _) => true | _ => false end.

(** [v && typeof v === 'object'] *)
Definition is_object (v : js_value num) : bool :=
  match v with Data (JArr _ | JObj _) => true | _ => false end.

(** The array index a property name denotes, if it is the canonical
    decimal form of one. *)
Definition index_of_name (s : string) : option nat :=
  match parse_digits 10 s with
  | Some n => if String.eqb (dec n) s then Some (N.to_nat n) else None
  | None => None
  end.

(** [v[i]] for an array [v] and an index [i] of it *)
Definition get_index (v : js_value num) (i : nat) : js_value num :=
  match v with
  | Data (JArr l) => Data (nth i l JUndefined)
  | _ => Data JUndefined
  end.

(** [v[k]] for an object or array [v] *)
Definition get_field (v : js_value num) (k : string) : js_value num :=
  match v with
  | Data (JObj m) =>
      match own_property m k with
      | Some x => Data x
      | None => member (JObj m) k
      end
  | Data (JArr l) =>
      match index_of_name k ≫= (l !!.) with
      | Some x => Data x
      | None => member (JArr l) k
      end
  | _ => Data JUndefined
  end.

(** [Object.keys(v)] for an object or array [v] *)
Definition object_keys (v : js_value num) : list string :=
  match v with
  | Data (JObj m) => m.*1
  | Data (JArr l) => (fun i => dec (N.of_nat i)) <$> seq 0 (length l)
  | _ => []
  end.

(** The key handed to [isIn]: a property name or an array index. *)
Inductive path_key :=
| Field (s : string)
| Index (i : nat).

Definition isIn (c : IsContext) (key : path_key) : checked IsContext :=
  let cKey := default "" (ctx_key c) in
  match key with
  | Index i =>
      if is_array (ctx_value c)
      then Verified {| ctx_key := Some (cKey ++ "[" ++ dec (N.of_nat i) ++ "]");
                       ctx_value := get_index (ctx_value c) i |}
      else throw_TvError c "array"
  | Field k =>
      if is_object (ctx_value c)
      then Verified {| ctx_key := Some (cKey ++ (if truthy cKey then "." else "") ++ k);
                       ctx_value := get_field (ctx_value c) k |}
      else throw_TvError c "object"
  end.

(** The context [isIn] makes for element [i] of an array met at [key],
    and for property [k] of an object met at [key]. *)
Definition item_context (key : option string) (i : nat) (x : json num) : IsContext :=
  {| ctx_key := Some (default "" key ++ "[" ++ dec (N.of_nat i) ++ "]");
     ctx_value := Data x |}.

Definition property_context (key : option string) (k : string) (x : json num)
  : IsContext :=
  {| ctx_key := Some (default "" key
                      ++ (if truthy (default "" key) then "." else "") ++ k);
     ctx_value := Data x |}.

(** [fn] accepts the value of the property [p] under its key path, with
    the result that [r] holds under the same key. *)
Definition accepts {T} (fn : IsContext -> checked T) (key : option string)
    (p : string * json num) (r : string * T) : Prop :=
  p.1 = r.1 /\ fn (property_context key p.1 p.2) = Verified r.2.

(** The entries among [vs] that become properties of the result of
    [isObjectMap]: all but one under the key [__proto__]. *)
Definition without_proto {T} (vs : list (string * T)) : list (string * T) :=
  List.filter (fun r => negb (String.eqb r.1 "__proto__")) vs.

(** The constants [isConstant] is used with. *)
Inductive constant :=
| CUndefined
| CNull
| CStr (s : string).

(** ['' + x] *)
Definition constant_name (x : constant) : string :=
  match x with
  | CUndefined => "undefined"
  | CNull => "null"
  | CStr s => s
  end.

(** [v === x] *)
Definition is_constant (v : js_value num) (x : constant) : bool :=
  match v, x with
  | Data JUndefined, CUndefined => true
  | Data JNull, CNull => true
  | Data (JStr s), CStr s' => String.eqb s s'
  | _, _ => false
  end.

Definition isConstant (x : constant) : IsA constant := fun c =>
  if is_constant (ctx_value c) x then Verified x
  else throw_TvError c (constant_name x).

Definition isBoolean : IsA bool := fun c =>
  match ctx_value c with
  | Data (JBool b) => Verified b
  | _ => throw_TvError c "boolean"
  end.

Definition isString : IsA string := fun c =>
  match ctx_value c with
  | Data (JStr s) => Verified s
  | _ => throw_TvError c "string"
  end.

Definition isNumber : IsA num := fun c =>
  match ctx_value c with
  | Data (JNum n) => Verified n
  | _ => throw_TvError c "number"
  end.

Definition isNull : IsA constant := isConstant CNull.
Definition isUndefined : IsA constant := isConstant CUndefined.

(** [fn(isIn(c, key))] *)
Definition at_key {T} (fn : IsA T) (c : IsContext) (key : path_key) : checked T :=
  checked_bind (isIn c key) fn.

(** The loop of [isObjectMap] over the keys still to do.  The result
    lists the own properties of [output] in the order the assignments
    [output[key] = v] made them, the keys being distinct.  The
    assignment to [__proto__] makes no property: it calls the setter
    that [output] inherits, which sets the prototype when [v] is an
    object and does nothing otherwise. *)
Fixpoint verify_keys {T} (fn : IsA T) (c : IsContext) (keys : list string)
  : checked (list (string * T)) :=
  match keys with
  | [] => Verified []
  | k :: keys' =>
      checked_bind (at_key fn c (Field k)) (fun v =>
      checked_bind (verify_keys fn c keys') (fun out =>
      Verified (if String.eqb k "__proto__" then out else (k, v) :: out)))
  end.

Definition isObjectMap {T} (fn : IsA T) : IsA (list (string * T)) := fun c =>
  if is_object (ctx_value c) then verify_keys fn c (object_keys (ctx_value c))
  else throw_TvError c "object".

(** [map((_child, i) => fn(isIn(c, i)))], from index [i] on, over [n]
    elements. *)
Fixpoint verify_items {T} (fn : IsA T) (c : IsContext) (i : nat) (n : nat)
  : checked (list T) :=
  match n with
  | O => Verified []
  | S n' =>
      checked_bind (at_key fn c (Index i)) (fun v =>
      checked_bind (verify_items fn c (S i) n') (fun out =>
      Verified (v :: out)))
  end.

Definition isArrayOf {T} (fn : IsA T) : IsA (list T) := fun c =>
  match ctx_value c with
  | Data (JArr l) => verify_items fn c 0 (length l)
  | _ => throw_TvError c "array"
  end.

(** [types.join(' | ')] *)
Fixpoint join_types (types : list string) : string :=
  match types with
  | [] => ""
  | [t] => t
  | t :: types' => t ++ " | " ++ join_types types'
  end.

(** What [isOneOf] records of an alternative that threw a [TvError]. *)
Definition alternative_name (c : IsContext) (e : TvError) : string :=
  if String.eqb (default "" (ctx_key c)) (err_key e) then err_expected e
  else "[" ++ err_message e ++ "]".

(** The loop of [isOneOf].  An exception that is no [TvError] is caught
    as well, and leaves no trace. *)
Fixpoint try_each {T} (fns : list (IsA T)) (c : IsContext) (types : list string)
  : checked T :=
  match fns with
  | [] => throw_TvError c (join_types types)
  | fn :: fns' =>
      match fn c with
      | Verified v => Verified v
      | Rejected e => try_each fns' c (types ++ [alternative_name c e])
      | Crashed => try_each fns' c types
      end
  end.

Definition isOneOf {T} (fns : list (IsA T)) : IsA T := fun c =>
  try_each fns c [].

(** [isOneOf(fn, isUndefined)]: the result is [fn]'s value or
    undefined. *)
Definition isMaybe {T} (fn : IsA T) : IsA (option T) :=
  isOneOf [ (fun c => checked_bind (fn c) (fun v => Verified (Some v)));
            (fun c => checked_bind (isUndefined c) (fun _ => Verified None)) ].

(** [fn(isIn(c, 'name'))] *)
Definition field {T} (fn : IsA T) (c : IsContext) (name : string) : checked T :=
  at_key fn c (Field name).

Definition isArgumentSchema : IsA ArgumentSchema := fun c =>
  checked_bind (field isString c "key") (fun k =>
  checked_bind (field isString c "info") (fun i =>
  checked_bind (field (isMaybe (isArrayOf isString)) c "values") (fun v =>
  Verified {| arg_key := k; arg_info := i; arg_values := v |}))).

(** What [isHttpCallRequest] returns. *)
Record VerifiedRequest := {
  v_method : string;
  v_url : string;
  v_headers : option (list (string * string));
  v_body : option string;
  v_mode : option string
}.

Definition isHttpCallRequest : IsA VerifiedRequest := fun c =>
  checked_bind (field isString c "method") (fun m =>
  checked_bind (field isString c "url") (fun u =>
  checked_bind (field (isMaybe (isObjectMap isString)) c "headers") (fun h =>
  checked_bind (field (isMaybe isString) c "body") (fun b =>
  checked_bind (field (isMaybe isString) c "mode") (fun md =>
  Verified {| v_method := m; v_url := u; v_headers := h; v_body := b;
              v_mode := md |}))))).

(** What [isPanelButton] returns. *)
Record VerifiedButton := {
  v_text : string;
  v_is : option string;
  v_set : option (list (string * string));
  v_setList : option (list string);
  v_arguments : option (list ArgumentSchema);
  v_proxyUrl : option string;
  v_repeat : option num;
  v_repeatInitial : option num;
  v_column : option num;
  v_showOutput : option bool;
  v_request : option VerifiedRequest;
  v_command : option string;
  v_commandUrl : option string;
  v_isPersisted : option bool
}.

Definition isPanelButton : IsA VerifiedButton := fun c =>
  checked_bind (field isString c "text") (fun text =>
  checked_bind (field (isMaybe isString) c "is") (fun is' =>
  checked_bind (field (isMaybe (isObjectMap isString)) c "set") (fun set' =>
  checked_bind (field (isMaybe (isArrayOf isString)) c "setList") (fun setList' =>
  checked_bind (field (isMaybe (isArrayOf isArgumentSchema)) c "arguments") (fun args =>
  checked_bind (field (isMaybe isString) c "proxyUrl") (fun proxyUrl' =>
  checked_bind (field (isMaybe isNumber) c "repeat") (fun repeat' =>
  checked_bind (field (isMaybe isNumber) c "repeatInitial") (fun repeatInitial' =>
  checked_bind (field (isMaybe isNumber) c "column") (fun column' =>
  checked_bind (field (isMaybe isBoolean) c "showOutput") (fun showOutput' =>
  checked_bind (field (isMaybe isHttpCallRequest) c "request") (fun request' =>
  checked_bind (field (isMaybe isString) c "command") (fun command' =>
  checked_bind (field (isMaybe isString) c "commandUrl") (fun commandUrl' =>
  checked_bind (field (isMaybe isBoolean) c "isPersisted") (fun isPersisted' =>
  Verified {| v_text := text; v_is := is'; v_set := set'; v_setList := setList';
              v_arguments := args; v_proxyUrl := proxyUrl';
              v_repeat := repeat'; v_repeatInitial := repeatInitial';
              v_column := column'; v_showOutput := showOutput';
              v_request := request'; v_command := command';
              v_commandUrl := commandUrl';
              v_isPersisted := isPersisted' |})))))))))))))).

(** ** The JSON text of a typed value *)

(** A property that is present. *)
Definition prop (name : string) (v : json num) : list (string * json num) :=
  [(name, v)].

(** An optional property, left out when it is missing. *)
Definition opt_prop {T} (name : string) (enc : T -> json num) (o : option T)
  : list (string * json num) :=
  match o with Some x => [(name, enc x)] | None => [] end.

Definition json_of_dict (m : list (string * string)) : json num :=
  JObj (prod_map id JStr <$> m).

Definition json_of_strings (l : list string) : json num := JArr (JStr <$> l).

Definition json_of_argument (a : ArgumentSchema) : json num :=
  JObj (prop "key" (JStr (arg_key a)) ++ prop "info" (JStr (arg_info a))
        ++ opt_prop "values" json_of_strings (arg_values a)).

Definition json_of_request (r : VerifiedRequest) : json num :=
  JObj (prop "method" (JStr (v_method r)) ++ prop "url" (JStr (v_url r))
        ++ opt_prop "headers" json_of_dict (v_headers r)
        ++ opt_prop "body" JStr (v_body r)
        ++ opt_prop "mode" JStr (v_mode r)).

Definition button_properties (b : VerifiedButton) : list (string * json num) :=
  prop "text" (JStr (v_text b))
  ++ opt_prop "is" JStr (v_is b)
  ++ opt_prop "set" json_of_dict (v_set b)
  ++ opt_prop "setList" json_of_strings (v_setList b)
  ++ opt_prop "arguments" (fun l => JArr (json_of_argument <$> l)) (v_arguments b)
  ++ opt_prop "proxyUrl" JStr (v_proxyUrl b)
  ++ opt_prop "repeat" JNum (v_repeat b)
  ++ opt_prop "repeatInitial" JNum (v_repeatInitial b)
  ++ opt_prop "column" JNum (v_column b)
  ++ opt_prop "showOutput" JBool (v_showOutput b)
  ++ opt_prop "request" json_of_request (v_request b)
  ++ opt_prop "command" JStr (v_command b)
  ++ opt_prop "commandUrl" JStr (v_commandUrl b)
  ++ opt_prop "isPersisted" JBool (v_isPersisted b).

(** The names the verifiers of a button and of what it holds read. *)
Definition button_property_names : list string :=
  ["text"; "is"; "set"; "setList"; "arguments"; "proxyUrl"; "repeat";
   "repeatInitial"; "column"; "showOutput"; "request"; "command";
   "commandUrl"; "isPersisted"].

Definition request_property_names : list string :=
  ["method"; "url"; "headers"; "body"; "mode"].

Definition argument_property_names : list string :=
  ["key"; "info"; "values"].

(** The keys of a dictionary are distinct, as the keys of an object
    are, and none is [__proto__], which names no property that an
    assignment can make. *)
Definition distinct_keys {T} (m : list (string * T)) : Prop :=
  NoDup m.*1 /\ "__proto__" ∉ m.*1.

Definition wf_request (r : VerifiedRequest) : Prop :=
  match v_headers r with Some h => distinct_keys h | None => True end.

Definition wf_button (b : VerifiedButton) : Prop :=
  match v_set b with Some s => distinct_keys s | None => True end
  /\ match v_request b with Some r => wf_request r | None => True end.

(** An object inherits nothing under the names the verifiers read. *)
Definition reads_own_properties : Prop :=
  forall (m : list (string * json num)) (k : string),
    k ∈ (button_property_names ++ request_property_names
         ++ argument_property_names)%list ->
    member (JObj m) k = Data JUndefined.

End TypeVerifier.

Arguments Verified {num T} x.
Arguments Rejected {num T} e.
Arguments Crashed {num T}.

(** An engine for the examples: the numbers are the naturals, an array
    has its length and the method [values], an object its
    [constructor]. *)
#[export] Instance example_engine : Engine N := {|
  num_to_string := dec;
  member v k :=
    match v with
    | JArr l =>
        if String.eqb k "length" then Data (JNum (N.of_nat (length l)))
        else if String.eqb k "values"
             then Builtin "function values() { [native code] }"
             else Data JUndefined
    | _ =>
        if String.eqb k "constructor"
        then Builtin "function Object() { [native code] }"
        else Data JUndefined
    end
|}.


(** ** The token pattern on strings built around a token *)

Lemma append_cons (c : ascii) (a b : string) :
  String c a ++ b = String c (a ++ b).
Proof. reflexivity. Qed.

Lemma append_nil_l (b : string) : "" ++ b = b.
Proof. reflexivity. Qed.

Lemma append_assoc (a b c : string) : (a ++ b) ++ c = a ++ (b ++ c).
Proof.
  induction a as [|x a IH]; [done |].
  by rewrite !append_cons, IH.
Qed.

Lemma append_nil_r (a : string) : a ++ "" = a.
Proof.
  induction a as [|x a IH]; [done |].
  by rewrite append_cons, IH.
Qed.

(** A run of [p]-characters followed by a character that is not one is
    exactly what [span] splits off. *)
Lemma span_run (p : ascii -> bool) (w : string) (c : ascii) (rest : string) :
  all_chars p w = true -> p c = false ->
  span p (w ++ String c rest) = (w, String c rest).
Proof.
  intros Hw Hc. induction w as [|x w IH].
  - rewrite append_nil_l. cbn [span]. by rewrite Hc.
  - cbn [all_chars] in Hw. apply andb_prop in Hw as [Hx Hw].
    rewrite append_cons. cbn [span]. by rewrite Hx, (IH Hw).
Qed.

Lemma word_nonempty (w : string) : word w = true -> w <> "".
Proof. by destruct w. Qed.

Lemma word_all (w : string) : word w = true -> all_chars is_word_char w = true.
Proof. by destruct w. Qed.

Lemma match_body_key (k rest : string) :
  word k = true -> match_body (k ++ String "}" rest) = Some (None, k).
Proof.
  intros Hk. unfold match_body.
  rewrite (span_run _ _ _ _ (word_all _ Hk)) by done.
  by destruct k.
Qed.

Lemma match_body_fn_key (f k rest : string) :
  word f = true -> word k = true ->
  match_body (f ++ String ":" (k ++ String "}" rest)) = Some (Some f, k).
Proof.
  intros Hf Hk. unfold match_body.
  rewrite (span_run _ _ _ _ (word_all _ Hf)) by done.
  destruct f as [|c f]; [done |].
  rewrite (span_run _ _ _ _ (word_all _ Hk)) by done.
  by destruct k.
Qed.

(** The text of a well-formed token matches the pattern, with exactly
    its own parts as capture groups, whatever follows it. *)
Lemma match_at_token (sl : string) (fn : option string) (k rest : string) :
  all_chars is_backslash sl = true -> word_opt fn = true -> word k = true ->
  match_at (t_match (mk_token sl fn k) ++ rest) = Some (mk_token sl fn k).
Proof.
  intros Hsl Hfn Hk. unfold mk_token at 1. cbn [t_match].
  change (("$" ++ ?x) ++ rest) with (String "$" (x ++ rest)).
  unfold match_at. rewrite !append_assoc.
  change ("{" ++ ?x) with (String "{" x).
  rewrite (span_run _ _ _ _ Hsl) by done.
  destruct fn as [f|]; cbn [word_opt] in Hfn.
  - rewrite !append_assoc. change (":" ++ ?x) with (String ":" x).
    change ("}" ++ ?x) with (String "}" x).
    by rewrite match_body_fn_key.
  - change ("}" ++ ?x) with (String "}" x).
    by rewrite match_body_key.
Qed.

Lemma segments_skip (a rest : string) :
  segments (a ++ rest) (String.length a) = segments rest 0.
Proof.
  induction a as [|x a IH]; [done |].
  by rewrite append_cons.
Qed.

(** A token at the head of a text is the first match; the search resumes
    right after it. *)
Lemma segments_token (sl : string) (fn : option string) (k rest : string) :
  all_chars is_backslash sl = true -> word_opt fn = true -> word k = true ->
  segments (t_match (mk_token sl fn k) ++ rest) 0
  = STok (mk_token sl fn k) :: segments rest 0.
Proof.
  intros Hsl Hfn Hk.
  pose proof (match_at_token sl fn k rest Hsl Hfn Hk) as Hm.
  remember (mk_token sl fn k) as t eqn:Ht.
  assert (exists m, t_match t = String "$" m) as [m Hmt].
  { subst t. by eexists. }
  rewrite Hmt, append_cons in Hm. rewrite Hmt, append_cons.
  cbn [segments]. rewrite Hm, Hmt. cbn [String.length Nat.pred].
  by rewrite segments_skip.
Qed.

(** A character that does not start a match is copied. *)
Lemma segments_literal (c : ascii) (rest : string) :
  c <> "$"%char -> segments (String c rest) 0 = SLit c :: segments rest 0.
Proof.
  intros Hc. cbn [segments].
  assert (match_at (String c rest) = None) as ->; [| done].
  unfold match_at.
  destruct c as [[] [] [] [] [] [] [] []]; try done.
Qed.


(** ** The recursion budget

    A call that finishes within some budget finishes the same way within
    any larger one. *)

Lemma bind_finishes {A B} (m : outcome A) (f : A -> outcome B) :
  finishes (m ≫= f) -> finishes m.
Proof. by destruct m. Qed.

Lemma bind_le {A B} (m m' : outcome A) (f f' : A -> outcome B) :
  (finishes m -> m' = m) ->
  (forall a, m = Val a -> finishes (f a) -> f' a = f a) ->
  finishes (m ≫= f) -> m' ≫= f' = m ≫= f.
Proof.
  intros Hm Hf Hfin. rewrite (Hm (bind_finishes _ _ Hfin)).
  destruct m as [a| |]; try done. apply Hf; done.
Qed.

Lemma replace_token_le (lk lk' : lookup_fn) app button t seen :
  lookup_le lk lk' ->
  finishes (replace_token lk app button t seen) ->
  replace_token lk' app button t seen = replace_token lk app button t seen.
Proof.
  intros Hle. unfold replace_token.
  destruct (t_slash t) as [[|c sl]|]; try done;
    (case_decide; [done |]; apply bind_le; [apply Hle | done]).
Qed.

Lemma replace_all_le (lk lk' : lookup_fn) app button segs seen :
  lookup_le lk lk' ->
  finishes (replace_all (replace_token lk app button) segs seen) ->
  replace_all (replace_token lk' app button) segs seen
  = replace_all (replace_token lk app button) segs seen.
Proof.
  intros Hle. revert seen. induction segs as [|[c|t] segs IH]; intros seen.
  - done.
  - cbn [replace_all]. apply bind_le; [apply IH | done].
  - cbn [replace_all]. apply bind_le; [by apply replace_token_le |].
    intros [r seen1] _. apply bind_le; [apply IH | done].
Qed.

Lemma expand_with_le (lk lk' : lookup_fn) app button text seen :
  lookup_le lk lk' ->
  finishes (expand_with lk app button text seen) ->
  expand_with lk' app button text seen = expand_with lk app button text seen.
Proof. apply replace_all_le. Qed.

Lemma lookup_S_le (fuel : nat) : lookup_le (lookup fuel) (lookup (S fuel)).
Proof.
  induction fuel as [|fuel IH]; intros app button key setKey isLookup seen.
  - by intros [].
  - remember (S fuel) as f1 eqn:Hf1. rewrite Hf1 at 1 3.
    cbn [lookup]. apply bind_le.
    + destruct (source_of button key setKey) as [b k|b n|b s|]; try done.
      * destruct (get_prop b k); [done | apply IH].
      * destruct (setList b ≫= _); [done |].
        apply bind_le; [apply IH | done].
      * destruct (set b ≫= _); [done |].
        apply bind_le; [apply IH | done].
    + intros [result seen1] _.
      destruct isLookup; [done |]. destruct result as [[]|]; try done.
      apply bind_le; [| done]. by apply expand_with_le.
Qed.

Lemma lookup_mono (fuel fuel' : nat) : (fuel <= fuel')%nat -> lookup_le (lookup fuel) (lookup fuel').
Proof.
  induction 1 as [|fuel' _ IH]; [by intros ??????|].
  intros app button key setKey isLookup seen Hfin.
  rewrite <- (IH _ _ _ _ _ _ Hfin). apply lookup_S_le. by rewrite IH.
Qed.

Lemma lookup_more_fuel fuel fuel' app button key setKey isLookup seen r :
  lookup fuel app button key setKey isLookup seen = Val r -> (fuel <= fuel')%nat ->
  lookup fuel' app button key setKey isLookup seen = Val r.
Proof.
  intros H Hle. rewrite <- H. apply lookup_mono; [done |]. by rewrite H.
Qed.

Lemma expand_more_fuel fuel fuel' app button text seen r :
  expand fuel app button text seen = Val r -> (fuel <= fuel')%nat ->
  expand fuel' app button text seen = Val r.
Proof.
  intros H Hle. rewrite <- H. apply expand_with_le; [by apply lookup_mono |].
  unfold expand in H. by rewrite H.
Qed.


(** ** [seen] is left as it was found

    Every key added to the set is deleted again before the call that
    added it returns. *)

Lemma bind_val {A B} (m : outcome A) (f : A -> outcome B) (b : B) :
  m ≫= f = Val b -> exists a, m = Val a /\ f a = Val b.
Proof. destruct m as [a| |]; try done. by exists a. Qed.

Lemma seen_restored (k : set_key) (seen : seen_set) :
  k ∉ seen -> default ({[k]} ∪ seen) (Some ({[k]} ∪ seen)) ∖ {[k]} = seen.
Proof.
  intros Hk. cbn. apply set_eq. intros x.
  rewrite elem_of_difference, elem_of_union, elem_of_singleton. split.
  - intros [[Hx | Hx] Hne]; [contradiction | exact Hx].
  - intros Hx. split; [by right | by intros ->].
Qed.

Lemma replace_token_seen (lk : lookup_fn) app button t seen r seen' :
  keeps_seen lk ->
  replace_token lk app button t seen = Val (r, seen') -> seen' = seen.
Proof.
  intros Hk. unfold replace_token.
  destruct (t_slash t) as [[|c sl]|]; try congruence;
    (case_decide as Hin; [congruence |];
     intros ([v after] & Hlk & Hr)%bind_val;
     apply Hk in Hlk as ->; rewrite (seen_restored _ _ Hin) in Hr;
     repeat case_match; congruence).
Qed.

Lemma replace_all_seen (lk : lookup_fn) app button segs seen r seen' :
  keeps_seen lk ->
  replace_all (replace_token lk app button) segs seen = Val (r, seen') ->
  seen' = seen.
Proof.
  intros Hk. revert seen r seen'.
  induction segs as [|[c|t] segs IH]; intros seen r seen'; cbn [replace_all].
  - congruence.
  - intros ([out s1] & H1 & H2)%bind_val. apply IH in H1. congruence.
  - intros ([r1 s1] & H1 & ([out s2] & H2 & H3)%bind_val)%bind_val.
    apply (replace_token_seen _ _ _ _ _ _ _ Hk) in H1. apply IH in H2.
    congruence.
Qed.

Lemma lookup_keeps_seen (fuel : nat) : keeps_seen (lookup fuel).
Proof.
  induction fuel as [|fuel IH];
    intros app button key setKey isLookup seen v after; [done |].
  cbn [lookup]. intros ([result seen1] & Hres & Hfin)%bind_val.
  assert (seen1 = seen) as ->.
  { destruct (source_of button key setKey) as [b k|b n|b s|].
    - destruct (get_prop b k); [congruence | by apply IH in Hres].
    - destruct (setList b ≫= _); [congruence |].
      apply bind_val in Hres as ([inh s1] & H1 & H2). apply IH in H1.
      repeat case_match; congruence.
    - destruct (set b ≫= _); [congruence |].
      apply bind_val in Hres as ([inh s1] & H1 & H2). apply IH in H1.
      repeat case_match; congruence.
    - congruence. }
  destruct isLookup; [congruence |].
  destruct result as [[]|]; try congruence.
  apply bind_val in Hfin as ([out s2] & H1 & H2).
  apply (replace_all_seen _ _ _ _ _ _ _ (IH)) in H1.
  destruct seen as [s0|]; cbn in *; congruence.
Qed.

Lemma expand_keeps_seen fuel app button text seen r seen' :
  expand fuel app button text seen = Val (r, seen') -> seen' = seen.
Proof. apply replace_all_seen, lookup_keeps_seen. Qed.

(** ** With [key] null, [lookup] yields a string or null *)

Lemma lookup_set_string_or_null fuel app button setKey isLookup seen v after :
  lookup fuel app button None setKey isLookup seen = Val (Some v, after) ->
  exists s, v = VStr s.
Proof.
  revert button isLookup seen v after.
  induction fuel as [|fuel IH]; intros button isLookup seen v after; [done |].
  cbn [lookup]. intros ([result seen1] & Hres & Hfin)%bind_val.
  assert (result = None \/ exists s, result = Some (VStr s)) as Hshape.
  { unfold source_of in Hres.
    destruct button as [b|]; [| left; congruence].
    destruct setKey as [[n|s]|]; [| | left; congruence].
    - destruct (setList b ≫= _); [simplify_eq; eauto |].
      apply bind_val in Hres as ([[inh|] s1] & H1 & H2).
      + apply IH in H1 as [s ->]. simplify_eq; eauto.
      + destruct (setGlobals app) as [g|]; [| done].
        destruct (g !! _); cbn in H2; simplify_eq; eauto.
    - destruct (set b ≫= _); [simplify_eq; eauto |].
      apply bind_val in Hres as ([[inh|] s1] & H1 & H2).
      + apply IH in H1 as [s' ->]. simplify_eq; eauto.
      + destruct (setGlobals app) as [g|]; [| done].
        destruct (g !! _); cbn in H2; simplify_eq; eauto. }
  destruct Hshape as [-> | [s ->]].
  - destruct isLookup; congruence.
  - destruct isLookup; [simplify_eq; eauto |].
    apply bind_val in Hfin as ([out s2] & H1 & H2). simplify_eq; eauto.
Qed.


(** ** Resolution along a finite [is] chain *)

Lemma lookup_no_button fuel app key setKey isLookup seen :
  lookup (S fuel) app None key setKey isLookup seen = Val (None, seen).
Proof. cbn [lookup source_of]. by destruct isLookup. Qed.

Lemma lookup_set_step fuel app b k seen :
  lookup (S fuel) app (Some b) None (Some k) true seen =
  match own_set_value b k with
  | Some v => Val (Some (VStr v), seen)
  | None =>
      '(inherited, seen1) ← lookup fuel app (parent_of app (Some b)) None (Some k) true seen;
      match inherited with
      | Some v => Val (Some v, seen1)
      | None =>
          match setGlobals app with
          | Some g => Val (VStr <$> g !! property_name k, seen1)
          | None => Throw TypeError
          end
      end
  end.
Proof.
  cbn [lookup]. destruct k as [n|s]; cbn [source_of own_set_value].
  - destruct (setList b ≫= _); [done |].
    destruct (lookup fuel app _ None _ true seen) as [[[v|] s1]| |]; try done.
    cbn. by destruct (setGlobals app).
  - destruct (set b ≫= _); [done |].
    destruct (lookup fuel app _ None _ true seen) as [[[v|] s1]| |]; try done.
    cbn. by destruct (setGlobals app).
Qed.

Lemma is_chain_some_inv app b l' :
  is_chain app (Some b) l' ->
  exists l, l' = b :: l /\ is_chain app (parent_of app (Some b)) l.
Proof. inversion 1; subst; eauto. Qed.

Lemma is_chain_none_inv app l : is_chain app None l -> l = [].
Proof. by inversion 1. Qed.

Lemma lookup_set_chain app b l k seen fuel :
  is_chain app (Some b) l -> (length l < fuel)%nat ->
  lookup fuel app (Some b) None (Some k) true seen = chain_set_result app l k seen.
Proof.
  revert b fuel. induction l as [|b' l IH]; intros b fuel Hc Hfuel;
    apply is_chain_some_inv in Hc as (l0 & Hl & Hc); [done |].
  injection Hl as <- <-.
  destruct fuel as [|fuel]; [simpl in Hfuel; lia |].
  rewrite lookup_set_step. unfold chain_set_result. cbn [first_defined].
  destruct (own_set_value b' k) as [v|]; [done |].
  destruct (parent_of app (Some b')) as [b2|].
  - rewrite (IH b2 fuel) by (done || simpl in *; lia).
    unfold chain_set_result.
    destruct (first_defined _ l) as [v|]; [done |].
    destruct (setGlobals app) as [g|]; [| done].
    cbn. by destruct (g !! property_name k).
  - apply is_chain_none_inv in Hc as ->.
    destruct fuel as [|fuel]; [simpl in Hfuel; lia |].
    rewrite lookup_no_button. cbn. by destruct (setGlobals app).
Qed.

Lemma lookup_prop_step fuel app b p seen :
  lookup (S fuel) app (Some b) (Some p) None true seen =
  match get_prop b p with
  | Some v => Val (Some v, seen)
  | None => lookup fuel app (parent_of app (Some b)) (Some p) None true seen
  end.
Proof.
  cbn [lookup source_of]. destruct (get_prop b p); [done |].
  by destruct (lookup fuel app _ (Some p) None true seen) as [[]| |].
Qed.



(** A call in the default mode is the internal call followed by the
    expansion of a string result. *)
Lemma lookup_then_expand fuel app button key setKey seen :
  lookup (S fuel) app button key setKey false seen =
  '(result, seen1) ← lookup (S fuel) app button key setKey true seen;
  match result with
  | Some (VStr s) =>
      '(out, after) ← expand fuel app button s (default {[seed_key setKey]} seen1);
      Val (Some (VStr out), (fun _ => after) <$> seen1)
  | _ => Val (result, seen1)
  end.
Proof.
  cbn [lookup].
  match goal with |- ?m ≫= _ = _ => destruct m as [[result s1]| |] end;
    try done.
Qed.

(** A text without a dollar sign has no token and expands to itself. *)
Lemma expand_no_dollar lk app button text seen :
  no_dollar text = true -> expand_with lk app button text seen = Val (text, seen).
Proof.
  unfold expand_with. induction text as [|c text IH]; [done |].
  cbn [no_dollar]. intros [Hc Ht]%andb_prop.
  rewrite segments_literal.
  - cbn [replace_all]. by rewrite (IH Ht).
  - intros ->. done.
Qed.

(** ** C1 *)

(** C1 (the code departs from the claim).  In an app as [types.ts]
    declares it, with no [setGlobals] member, the lookup of a [set] or
    [setList] key that no record of the button's [is] chain holds does
    not return null: reading [app.setGlobals[setKey]] throws a
    TypeError.  The key is one under which a dictionary inherits
    nothing, and every [is] of the chain names a template of the
    configuration or nothing at all. *)
Theorem C1_absent_key_throws_without_globals
    (app : ClientApp) (b : PanelButton) (l : list PanelButton) (k : set_key)
    (fuel : nat) :
  is_chain app (Some b) l ->
  Forall (reads_own_template app) l ->
  plain_key k ->
  first_defined (fun r => own_set_value r k) l = None ->
  setGlobals app = None ->
  (length l < fuel)%nat ->
  lookup fuel app (Some b) None (Some k) false None = Throw TypeError.
Proof.
  intros Hc _ _ Habs Hg Hfuel. destruct fuel as [|fuel]; [lia |].
  rewrite lookup_then_expand, (lookup_set_chain _ _ l) by done.
  unfold chain_set_result. by rewrite Habs, Hg.
Qed.

Lemma is_chain_single app b :
  parent_of app (Some b) = None -> is_chain app (Some b) [b].
Proof. intros H. constructor. rewrite H. constructor. Qed.

Lemma C1_absent_key_throws_witness :
  lookup 2 (makeApp []) (Some button_s1) None (Some (KStr "z")) false None
  = Throw TypeError.
Proof.
  apply (C1_absent_key_throws_without_globals (makeApp []) button_s1 [button_s1]).
  - apply is_chain_single. reflexivity.
  - repeat constructor.
  - apply (bool_decide_unpack _). reflexivity.
  - reflexivity.
  - reflexivity.
  - simpl. lia.
Defined.

(** With a global fallback map in the app, the same lookup returns null. *)
Lemma lookup_absent_key_null_with_globals
    (app : ClientApp) (b : PanelButton) (l : list PanelButton) (k : set_key)
    (g : gmap string string) (fuel : nat) :
  is_chain app (Some b) l ->
  Forall (reads_own_template app) l ->
  plain_key k ->
  first_defined (fun r => own_set_value r k) l = None ->
  setGlobals app = Some g -> g !! property_name k = None ->
  (length l < fuel)%nat ->
  lookup fuel app (Some b) None (Some k) false None = Val (None, None).
Proof.
  intros Hc _ _ Habs Hg Hk Hfuel. destruct fuel as [|fuel]; [lia |].
  rewrite lookup_then_expand, (lookup_set_chain _ _ l) by done.
  unfold chain_set_result. by rewrite Habs, Hg, Hk.
Qed.

(** ** C7 *)

Lemma list_at_lookup (xs : list string) (i : N) :
  list_at xs i = xs !! N.to_nat i.
Proof.
  revert i. induction xs as [|x xs IH]; intros i; [done |].
  cbn [list_at]. destruct (N.eqb_spec i 0) as [-> | Hi]; [done |].
  rewrite IH. replace (N.to_nat i) with (S (N.to_nat (N.pred i))) by lia.
  done.
Qed.

Lemma first_defined_ext {A} (f g : PanelButton -> option A) (l : list PanelButton) :
  (forall r, f r = g r) -> first_defined f l = first_defined g l.
Proof.
  intros H. induction l as [|r l IH]; [done |].
  cbn [first_defined]. by rewrite H, IH.
Qed.

(** C7 (the code departs from the claim in its last tier).  Along a
    finite [is] chain a string key is answered by the [set] of the
    nearest record that holds it, a numeric key by the [setList] of the
    nearest record that has that index, the button itself first.  When
    no record answers, [app.setGlobals] is read under the key: an app
    that carries the map yields its value or null, but an app as
    [types.ts] declares it has no such member, and the lookup throws a
    TypeError instead of returning null.  The default-mode call is the
    internal one followed by the expansion of a string result.  With
    [B.set = {a: "x"}], [B.is = T], [T.set = {a: "y", b: "z"}], key [a]
    on [B] yields ["x"], key [b] yields ["z"], and key [c], which
    nobody holds, throws. *)
Theorem C7_set_key_precedence
    (app : ClientApp) (b : PanelButton) (l : list PanelButton)
    (seen : option seen_set) (fuel : nat) :
  is_chain app (Some b) l ->
  Forall (reads_own_template app) l ->
  (length l < fuel)%nat ->
  (forall s, s ∉ Object_prototype_names ->
     lookup fuel app (Some b) None (Some (KStr s)) true seen
     = match first_defined (fun r => set r ≫= (.!! s)) l with
       | Some v => Val (Some (VStr v), seen)
       | None =>
           match setGlobals app with
           | Some g => Val (VStr <$> g !! s, seen)
           | None => Throw TypeError
           end
       end)
  /\ (forall n,
        lookup fuel app (Some b) None (Some (KNum n)) true seen
        = match first_defined
                  (fun r => xs ← setList r;
                            match n with
                            | Fin i => xs !! N.to_nat i
                            | Infinity => None
                            end) l with
          | Some v => Val (Some (VStr v), seen)
          | None =>
              match setGlobals app with
              | Some g => Val (VStr <$> g !! Number_toString n, seen)
              | None => Throw TypeError
              end
          end)
  /\ (forall k, plain_key k ->
        lookup (S fuel) app (Some b) None (Some k) false None
        = '(r, _) ← lookup fuel app (Some b) None (Some k) true None;
          match r with
          | Some (VStr v) =>
              '(out, _) ← expand fuel app (Some b) v {[k]};
              Val (Some (VStr out), None)
          | _ => Val (r, None)
          end)
  /\ (forall m, lookup (3 + m) app_BT (Some button_B) None (Some (KStr "a")) false None
                = Val (Some (VStr "x"), None))
  /\ (forall m, lookup (3 + m) app_BT (Some button_B) None (Some (KStr "b")) false None
                = Val (Some (VStr "z"), None))
  /\ (forall m, lookup (3 + m) app_BT (Some button_B) None (Some (KStr "c")) false None
                = Throw TypeError).
Proof.
  intros Hc _ Hfuel.
  assert (forall k s, lookup fuel app (Some b) None (Some k) true s
                      = chain_set_result app l k s) as Hraw.
  { intros k s. by apply lookup_set_chain. }
  split; [| split; [| split]].
  - intros s _. rewrite Hraw. reflexivity.
  - intros n. rewrite Hraw. unfold chain_set_result.
    rewrite (first_defined_ext (fun r => own_set_value r (KNum n))
               (fun r => xs ← setList r;
                         match n with
                         | Fin i => xs !! N.to_nat i
                         | Infinity => None
                         end) l); [done |].
    intros r. cbn [own_set_value]. destruct (setList r) as [xs|]; [| done].
    cbn [mbind option_bind]. destruct n as [i|]; [| done].
    apply list_at_lookup.
  - intros k _. rewrite lookup_then_expand.
    assert (finishes (lookup fuel app (Some b) None (Some k) true None)) as Hfin.
    { rewrite Hraw. unfold chain_set_result, finishes.
      destruct (first_defined _ l); [done |]. by destruct (setGlobals app). }
    rewrite (lookup_mono fuel (S fuel) ltac:(lia) _ _ _ _ _ _ Hfin).
    destruct (lookup fuel app (Some b) None (Some k) true None)
      as [[r s1]| |] eqn:E; try done.
    rewrite Hraw in E. unfold chain_set_result in E.
    assert (s1 = None) as ->.
    { destruct (first_defined _ l); [by injection E |].
      destruct (setGlobals app); [by injection E | done]. }
    by destruct r as [[]|].
  - split; [| split]; intros m.
    + apply (lookup_more_fuel 3); [reflexivity | lia].
    + apply (lookup_more_fuel 3); [reflexivity | lia].
    + assert (finishes (lookup 3 app_BT (Some button_B) None (Some (KStr "c"))
                          false None)) as Hfin by (by vm_compute).
      rewrite (lookup_mono 3 (3 + m) ltac:(lia) _ _ _ _ _ _ Hfin).
      by vm_compute.
Qed.

Lemma C7_set_key_precedence_witness :
  lookup 3 app_BT (Some button_B) None (Some (KStr "b")) true None
  = Val (Some (VStr "z"), None).
Proof.
  refine (proj1 (C7_set_key_precedence app_BT button_B [button_B; template_T]
                   None 3 _ _ _) "b" _).
  - apply chain_step, (chain_step _ template_T), chain_end.
  - apply Forall_cons. split; [| by apply Forall_cons].
    left. exists template_T. reflexivity.
  - simpl. lia.
  - apply (bool_decide_unpack _). reflexivity.
Defined.


(** ** C3 *)




(** ** C4 *)

(** C4 as stated fails: the template's [proxyUrl] is ["u${a}"]; looked
    up on the button, whose [set] has [a = "1"], it is ["u1"]; looked up
    on the template, whose [set] has [a = "2"], it is ["u2"]. *)
Lemma C4_inherited_string_counterexample :
  is_ button_context = Some "T"
  /\ parent_of app_context (Some button_context) = Some template_context
  /\ get_prop button_context PproxyUrl = None
  /\ get_prop template_context PproxyUrl = Some (VStr "u${a}")
  /\ lookup 3 app_context (Some button_context) (Some PproxyUrl) None false None
    = Val (Some (VStr "u1"), None)
  /\ lookup 3 app_context (parent_of app_context (Some button_context))
       (Some PproxyUrl) None false None
    = Val (Some (VStr "u2"), None)
  /\ lookup 3 app_context (Some button_context) (Some PproxyUrl) None false None
    <> lookup 3 app_context (parent_of app_context (Some button_context))
         (Some PproxyUrl) None false None.
Proof. repeat split; try reflexivity. vm_compute. discriminate. Qed.

(** C4 (amended).  For a button [B] with [B.is = T], a property
    undefined on [B] and defined on the template [T] resolves to [T]'s
    value: internally, and whenever that value is not a string, [lookup]
    on [B] and on [T] return the same.  A string value is expanded for
    the record the call was made on: against [B] when looked up on [B],
    against [T] when looked up on [T]. *)
Theorem C4_inherited_value
    (app : ClientApp) (b t : PanelButton) (p : prop_key) (v : value)
    (seen : option seen_set) (fuel : nat) :
  parent_of app (Some b) = Some t ->
  get_prop b p = None ->
  get_prop t p = Some v ->
  lookup (2 + fuel) app (Some b) (Some p) None true seen = Val (Some v, seen)
  /\ lookup (1 + fuel) app (Some t) (Some p) None true seen = Val (Some v, seen)
  /\ (string_of_value v = None ->
      lookup (2 + fuel) app (Some b) (Some p) None false None = Val (Some v, None)
      /\ lookup (1 + fuel) app (Some t) (Some p) None false None = Val (Some v, None))
  /\ (forall s, v = VStr s ->
      lookup (2 + fuel) app (Some b) (Some p) None false None
        = ('(out, _) ← expand (1 + fuel) app (Some b) s {[KStr ""]};
           Val (Some (VStr out), None))
      /\ lookup (1 + fuel) app (Some t) (Some p) None false None
        = ('(out, _) ← expand fuel app (Some t) s {[KStr ""]};
           Val (Some (VStr out), None))).
Proof.
  intros Hp Hb Ht.
  assert (forall s, lookup (2 + fuel) app (Some b) (Some p) None true s
                    = Val (Some v, s)) as HB.
  { intros s. cbn [Nat.add]. by rewrite lookup_prop_step, Hb, Hp, lookup_prop_step, Ht. }
  assert (forall s, lookup (1 + fuel) app (Some t) (Some p) None true s
                    = Val (Some v, s)) as HT.
  { intros s. cbn [Nat.add]. by rewrite lookup_prop_step, Ht. }
  split; [apply HB |]. split; [apply HT |].
  cbn [Nat.add] in *. split.
  - intros Hv. rewrite !lookup_then_expand, HB, HT. by destruct v.
  - intros s ->. rewrite !lookup_then_expand, HB, HT. cbn. split.
    + by destruct (expand (S fuel) app (Some b) s _) as [[]| |].
    + by destruct (expand fuel app (Some t) s _) as [[]| |].
Qed.

Lemma C4_inherited_value_witness :
  lookup 2 app_context (Some button_context) (Some PproxyUrl) None true None
  = Val (Some (VStr "u${a}"), None).
Proof.
  apply (C4_inherited_value app_context button_context
           template_context PproxyUrl (VStr "u${a}") None 0).
  - reflexivity.
  - reflexivity.
  - reflexivity.
Defined.


(** ** Expanding a text that is one token *)

Lemma all_backslashes (n : nat) :
  all_chars is_backslash (repeat_string n "\") = true.
Proof. induction n as [|n IH]; [done |]. by cbn [repeat_string]. Qed.

Lemma escaped_token_match (n : nat) (fn : option string) (k : string) :
  escaped_token n fn k = t_match (mk_token (repeat_string n "\") fn k).
Proof. reflexivity. Qed.

Lemma token_text_match (fn : option string) (k : string) :
  token_text fn k = t_match (mk_token "" fn k).
Proof. reflexivity. Qed.

(** The text of a token, followed by anything: the callback's result for
    the token, then the expansion of the rest. *)
Lemma expand_token_then (lk : lookup_fn) app button sl fn k rest seen :
  all_chars is_backslash sl = true -> word_opt fn = true -> word k = true ->
  expand_with lk app button (t_match (mk_token sl fn k) ++ rest) seen
  = '(r, seen1) ← replace_token lk app button (mk_token sl fn k) seen;
    '(out, seen2) ← expand_with lk app button rest seen1;
    Val (r ++ out, seen2).
Proof.
  intros Hsl Hfn Hk. unfold expand_with. by rewrite segments_token.
Qed.

Lemma expand_token_alone (lk : lookup_fn) app button sl fn k seen :
  all_chars is_backslash sl = true -> word_opt fn = true -> word k = true ->
  expand_with lk app button (t_match (mk_token sl fn k)) seen
  = replace_token lk app button (mk_token sl fn k) seen.
Proof.
  intros Hsl Hfn Hk.
  rewrite <- (append_nil_r (t_match _)), expand_token_then by done.
  destruct (replace_token lk app button _ seen) as [[r s1]| |]; try done.
  cbn. by rewrite append_nil_r.
Qed.

(** ** C8 *)

(** C8.  A token whose brace is preceded by backslashes is not looked
    up: one pass of [expand] drops one backslash and keeps the body,
    transform prefix included; [n] passes turn the token escaped [n]
    times into the plain token text.  ["$\{z}"] becomes ["${z}"] and
    ["$\\{0}"] becomes ["$\{0}"]. *)
Theorem C8_escape_peeling
    (fuel : nat) (app : ClientApp) (button : option PanelButton)
    (fn : option string) (k : string) (seen : seen_set) (n : nat) :
  word_opt fn = true -> word k = true ->
  expand fuel app button (escaped_token (S n) fn k) seen
    = Val (escaped_token n fn k, seen)
  /\ expand_passes n fuel app button (escaped_token n fn k) seen
    = Val ("${" ++ token_body fn k ++ "}", seen)
  /\ expand fuel app button "$\{z}" seen = Val ("${z}", seen)
  /\ expand fuel app button "$\\{0}" seen = Val ("$\{0}", seen).
Proof.
  intros Hfn Hk.
  assert (forall m f q, word_opt f = true -> word q = true ->
            expand fuel app button (escaped_token (S m) f q) seen
            = Val (escaped_token m f q, seen)) as Hpass.
  { intros m f q Hf Hq. unfold expand.
    rewrite escaped_token_match, expand_token_alone
      by (done || apply all_backslashes).
    reflexivity. }
  split; [by apply Hpass |]. split.
  - induction n as [|n IH]; [done |].
    cbn [expand_passes]. rewrite Hpass by done. exact IH.
  - split.
    + exact (Hpass 0%nat None "z" eq_refl eq_refl).
    + exact (Hpass 1%nat None "0" eq_refl eq_refl).
Qed.

Lemma C8_escape_peeling_witness :
  expand 0 (makeApp []) None "$\\{urlencode:y}" ∅ = Val ("$\{urlencode:y}", ∅).
Proof.
  apply (C8_escape_peeling 0 (makeApp []) None (Some "urlencode") "y" ∅ 1).
  - reflexivity.
  - reflexivity.
Defined.

(** ** C5 *)

Lemma replace_token_seen_key (lk : lookup_fn) app button fn k seen :
  token_key k ∈ seen ->
  replace_token lk app button (mk_token "" fn k) seen
  = Val (t_match (mk_token "" fn k), seen).
Proof.
  intros Hin. unfold replace_token. cbn [mk_token t_slash t_key t_match].
  by rewrite decide_True.
Qed.

(** C5.  A token that is not escaped and whose key is already in the
    visited set is emitted as it stands, without any lookup.  For a
    button with [set = {x: "x${x}x"}] the lookup of [x] returns
    ["x${x}x"]: the requested key seeds the visited set. *)
Theorem C5_visited_key_verbatim
    (fuel : nat) (app : ClientApp) (button : option PanelButton)
    (fn : option string) (k : string) (seen : seen_set) :
  word_opt fn = true -> word k = true -> token_key k ∈ seen ->
  expand fuel app button (token_text fn k) seen = Val (token_text fn k, seen)
  /\ (forall b m n,
        set b = Some m -> m !! "x" = Some "x${x}x" ->
        lookup (2 + n) app (Some b) None (Some (KStr "x")) false None
        = Val (Some (VStr "x${x}x"), None)).
Proof.
  intros Hfn Hk Hin. split.
  - unfold expand. rewrite token_text_match, expand_token_alone by done.
    by apply replace_token_seen_key.
  - intros b m n Hset Hx. cbn [Nat.add].
    rewrite lookup_then_expand, lookup_set_step.
    cbn [own_set_value]. rewrite Hset. cbn [mbind option_bind]. rewrite Hx.
    cbn [mbind outcome_bind default from_option id seed_key].
    unfold expand.
    change "x${x}x" with (String "x" (t_match (mk_token "" None "x") ++ "x")) at 1.
    unfold expand_with. rewrite segments_literal by done.
    rewrite segments_token by done. cbn [replace_all].
    rewrite replace_token_seen_key by (by apply elem_of_singleton).
    reflexivity.
Qed.

Lemma C5_visited_key_verbatim_witness :
  expand 0 (makeApp []) None "${x}" {[KStr "x"]} = Val ("${x}", {[KStr "x"]}).
Proof.
  apply (C5_visited_key_verbatim 0 (makeApp []) None None "x" {[KStr "x"]}).
  - reflexivity.
  - reflexivity.
  - apply elem_of_singleton. reflexivity.
Defined.


(** What the callback does with the value [lookup] returned for a token
    that is neither escaped nor visited. *)
Lemma replace_token_resolved (fuel : nat) app button fn k seen value after :
  token_key k ∉ seen ->
  lookup fuel app button None (Some (token_key k)) false
    (Some ({[token_key k]} ∪ seen)) = Val (value, after) ->
  replace_token (lookup fuel) app button (mk_token "" fn k) seen
  = match value ≫= string_of_value with
    | Some v =>
        if truthy v && bool_decide (fn = Some "urlencode")
        then Val (encodeURIComponent v, seen)
        else if truthy v && bool_decide (fn = Some "jsonString")
        then Val (JSON_stringify v, seen)
        else Val (v, seen)
    | None => Val (t_match (mk_token "" fn k), seen)
    end.
Proof.
  intros Hin Hlk. unfold replace_token. cbn [mk_token t_slash t_key t_match t_fn].
  rewrite decide_False by done. rewrite Hlk.
  apply lookup_keeps_seen in Hlk as ->.
  cbn [mbind outcome_bind]. by rewrite seen_restored.
Qed.

(** ** C2 *)

(** C2 as stated fails: with [set = {a: ""}] the token [${a}] resolves
    to the empty string, and [expand] emits the empty string in its
    place, not the token text. *)
Lemma C2_empty_value_counterexample :
  lookup 2 (makeApp []) (Some button_empty_value) None (Some (KStr "a")) false
    (Some {[KStr "a"]}) = Val (Some (VStr ""), Some {[KStr "a"]})
  /\ expand 2 (makeApp []) (Some button_empty_value) "${a}" ∅ = Val ("", ∅)
  /\ expand 2 (makeApp []) (Some button_empty_value) "${a}" ∅ <> Val ("${a}", ∅)
  /\ expand 2 (makeApp []) (Some button_empty_value) "${urlencode:a}" ∅ = Val ("", ∅).
Proof. repeat split; try (vm_compute; reflexivity). vm_compute. discriminate. Qed.

(** C2 (amended).  For a token that is not escaped and whose key is not
    in the visited set: when the key resolves to null, [expand] emits the
    token text unchanged, with or without a transform prefix; when it
    resolves to the empty string, [expand] emits the empty string. *)
Theorem C2_unresolved_token
    (fuel : nat) (app : ClientApp) (button : option PanelButton)
    (fn : option string) (k : string) (seen : seen_set)
    (value : option value) (after : option seen_set) :
  word_opt fn = true -> word k = true -> token_key k ∉ seen ->
  lookup fuel app button None (Some (token_key k)) false
    (Some ({[token_key k]} ∪ seen)) = Val (value, after) ->
  (value = None ->
   expand fuel app button (token_text fn k) seen = Val (token_text fn k, seen))
  /\ (value = Some (VStr "") ->
      expand fuel app button (token_text fn k) seen = Val ("", seen)).
Proof.
  intros Hfn Hk Hin Hlk.
  assert (expand fuel app button (token_text fn k) seen
          = replace_token (lookup fuel) app button (mk_token "" fn k) seen) as ->.
  { unfold expand. by rewrite token_text_match, expand_token_alone. }
  rewrite (replace_token_resolved _ _ _ _ _ _ _ _ Hin Hlk).
  split; intros ->; reflexivity.
Qed.

Lemma C2_unresolved_token_witness :
  expand 2 (with_globals ∅ (makeApp [])) (Some button_empty_value) "${q}" ∅
  = Val ("${q}", ∅).
Proof.
  refine (proj1 (C2_unresolved_token 2 (with_globals ∅ (makeApp []))
                   (Some button_empty_value) None "q" ∅ None
                   (Some ({[KStr "q"]} ∪ ∅)) _ _ _ _) _).
  - reflexivity.
  - reflexivity.
  - apply not_elem_of_empty.
  - reflexivity.
  - reflexivity.
Defined.

(** ** C10 *)




(** ** C9 *)

Lemma parent_of_map (f : PanelButton -> PanelButton) app button :
  (forall b, is_ (f b) = is_ b) ->
  parent_of (map_templates f app) (f <$> button) = f <$> parent_of app button.
Proof.
  intros Hf. destruct button as [b|]; [| done].
  cbn [fmap option_fmap option_map parent_of]. rewrite Hf.
  destruct (is_ b) as [name|]; [| done].
  case_decide; [done |]. cbn [map_templates config templates].
  destruct (templates (config app)) as [ts|]; [| done].
  rewrite lookup_fmap. done.
Qed.

(** An internal lookup depends on the records only through what [f]
    keeps, when [f] keeps [is] and the value the key reads. *)
Lemma lookup_set_map (f : PanelButton -> PanelButton) (k : set_key)
    fuel app button seen :
  (forall b, is_ (f b) = is_ b) ->
  (forall b, own_set_value (f b) k = own_set_value b k) ->
  lookup fuel (map_templates f app) (f <$> button) None (Some k) true seen
  = lookup fuel app button None (Some k) true seen.
Proof.
  intros His Hown. revert button.
  induction fuel as [|fuel IH]; intros button; [done |].
  destruct button as [b|]; [| by rewrite !lookup_no_button].
  cbn [fmap option_fmap option_map]. rewrite !lookup_set_step, Hown.
  destruct (own_set_value b k); [done |].
  change (Some (f b)) with (f <$> Some b). by rewrite parent_of_map, IH.
Qed.

(** C9 as stated fails for a token with a transform prefix: the body
    [urlencode:0] is not a number, yet the key [0] of the token is looked
    up as index 0 of [setList], not in [set]. *)
Lemma C9_prefixed_token_counterexample :
  match_at "${urlencode:0}" = Some (mk_token "" (Some "urlencode") "0")
  /\ t_body (mk_token "" (Some "urlencode") "0") = "urlencode:0"
  /\ Number "urlencode:0" = None
  /\ set button_zero ≫= (.!! "0") = Some "S"
  /\ set button_zero ≫= (.!! "urlencode:0") = Some "B"
  /\ expand 2 (makeApp []) (Some button_zero) "${urlencode:0}" ∅ = Val ("L", ∅).
Proof. repeat split; vm_compute; reflexivity. Qed.

(** C9 (amended).  The key of a token, that is its body without the
    transform prefix, decides the kind of lookup: when it parses as a
    number the lookup is by that number and reads [setList] only, never a
    [set]; otherwise it is by the string and reads [set] only, never a
    [setList].  [${0}] resolves to [setList[0]], not to [set["0"]]. *)
Theorem C9_numeric_key
    (fuel : nat) (app : ClientApp) (button : option PanelButton)
    (fn : option string) (k : string) (seen : option seen_set) :
  let key := token_key (t_key (mk_token "" fn k)) in
  (forall n, Number k = Some n ->
     key = KNum n
     /\ lookup fuel app button None (Some key) true seen
        = lookup fuel (map_templates without_set app) (without_set <$> button)
            None (Some key) true seen)
  /\ (Number k = None ->
      key = KStr k
      /\ lookup fuel app button None (Some key) true seen
         = lookup fuel (map_templates without_setList app)
             (without_setList <$> button) None (Some key) true seen)
  /\ expand 2 (makeApp []) (Some button_zero) "${0}" ∅ = Val ("L", ∅).
Proof.
  cbn [mk_token t_key]. unfold token_key, number. split; [| split].
  - intros n ->. split; [done |]. by rewrite lookup_set_map.
  - intros ->. split; [done |]. by rewrite lookup_set_map.
  - vm_compute. reflexivity.
Qed.

Lemma C9_numeric_key_witness :
  lookup 2 (makeApp []) (Some button_zero) None (Some (KNum (Fin 0))) true None
  = lookup 2 (map_templates without_set (makeApp []))
      (Some (without_set button_zero)) None (Some (KNum (Fin 0))) true None.
Proof.
  refine (proj2 (proj1 (C9_numeric_key 2 (makeApp []) (Some button_zero) None
                          "0" None) (Fin 0) _)).
  reflexivity.
Defined.

(** ** C6 *)

Lemma expand_mono fuel fuel' app button text seen :
  (fuel <= fuel')%nat -> finishes (expand fuel app button text seen) ->
  expand fuel' app button text seen = expand fuel app button text seen.
Proof. intros Hle. apply expand_with_le. by apply lookup_mono. Qed.

(** C6 (the code departs from the claim).  In an app as [types.ts]
    declares it, with no [setGlobals] member, and with a finite [is]
    chain, [expand] does not return on a text whose token names a key
    that no record of the chain holds: the lookup of the key throws a
    TypeError, and so does [expand].  The key is one under which a
    dictionary inherits nothing, and every [is] of the chain names a
    template of the configuration or nothing at all. *)
Theorem C6_unresolvable_token_throws_without_globals
    (app : ClientApp) (b : PanelButton) (l : list PanelButton)
    (fn : option string) (k : string) (seen : seen_set) (fuel : nat) :
  is_chain app (Some b) l ->
  Forall (reads_own_template app) l ->
  plain_key (token_key k) ->
  first_defined (fun r => own_set_value r (token_key k)) l = None ->
  setGlobals app = None ->
  word_opt fn = true -> word k = true -> token_key k ∉ seen ->
  (length l < fuel)%nat ->
  expand fuel app (Some b) (token_text fn k) seen = Throw TypeError.
Proof.
  intros Hc _ _ Habs Hg Hfn Hk Hin Hfuel. unfold expand.
  rewrite token_text_match, expand_token_alone by done.
  unfold replace_token. cbn [mk_token t_slash t_key].
  rewrite decide_False by done.
  destruct fuel as [|fuel]; [lia |].
  rewrite lookup_then_expand, (lookup_set_chain _ _ l) by done.
  unfold chain_set_result. by rewrite Habs, Hg.
Qed.

Lemma C6_unresolvable_token_throws_witness :
  expand 2 (makeApp []) (Some button_simple) "${a}" ∅ = Throw TypeError.
Proof.
  apply (C6_unresolvable_token_throws_without_globals (makeApp []) button_simple
           [button_simple] None "a" ∅ 2).
  - apply is_chain_single. reflexivity.
  - repeat constructor.
  - apply (bool_decide_unpack _). reflexivity.
  - reflexivity.
  - reflexivity.
  - reflexivity.
  - reflexivity.
  - apply not_elem_of_empty.
  - simpl. lia.
Defined.

(** The text of the test 'should perform simple expansions', on the app
    the test builds. *)
Lemma expand_test_text_throws (n : nat) :
  expand (2 + n) (makeApp []) (Some button_simple)
    "hello ${z} ${0} ${a} ${4} $\{z} $\\\{0}" ∅ = Throw TypeError.
Proof.
  rewrite (expand_mono 2) by (lia || by vm_compute). by vm_compute.
Qed.


(** ** Termination of [expand] when the app carries the global map

    Each nested expansion runs with one more key in [seen], and the keys
    it can meet are those of the tokens of the stored strings: a finite
    set.  So the nesting depth is bounded, and with it the budget. *)

Lemma list_at_elem (l : list string) (n : N) (v : string) :
  list_at l n = Some v -> v ∈ l.
Proof.
  revert n. induction l as [|x l IH]; intros n; [done |].
  cbn [list_at]. destruct (n =? 0).
  - intros [= ->]. left.
  - intros H. right. by eapply IH.
Qed.

Lemma own_set_value_stored (b : PanelButton) (k : set_key) (v : string) :
  own_set_value b k = Some v -> v ∈ record_values b.
Proof.
  unfold own_set_value, record_values. destruct k as [n|s].
  - destruct (setList b) as [l|]; [| done]. cbn.
    destruct n as [i|]; [| done]. cbn.
    intros H%list_at_elem. apply elem_of_app. by right.
  - destruct (set b) as [m|]; [| done]. cbn.
    intros H. apply elem_of_app. left.
    apply list_elem_of_fmap. exists (s, v). split; [done |].
    by apply elem_of_map_to_list.
Qed.

Lemma first_defined_stored (l : list PanelButton) (k : set_key) (v : string) :
  first_defined (fun b => own_set_value b k) l = Some v ->
  v ∈ l ≫= record_values.
Proof.
  induction l as [|b l IH]; [done |]. cbn [first_defined].
  destruct (own_set_value b k) as [w|] eqn:Hw.
  - intros [= ->]. apply list_elem_of_bind. exists b.
    split; [by eapply own_set_value_stored | left].
  - intros H%IH. apply list_elem_of_bind in H as (b' & Hv & Hb').
    apply list_elem_of_bind. exists b'. split; [done | by right].
Qed.

Lemma set_precedence_stored l (g : gmap string string) k v :
  set_precedence l g k = Some v -> v ∈ stored_values l g.
Proof.
  unfold set_precedence, stored_values.
  destruct (first_defined _ l) as [w|] eqn:Hw.
  - intros [= ->]. apply elem_of_app. left. by eapply first_defined_stored.
  - intros H. apply elem_of_app. right.
    apply list_elem_of_fmap. exists (property_name k, v). split; [done |].
    by apply elem_of_map_to_list.
Qed.

Lemma stored_keys_spec l g v :
  v ∈ stored_values l g -> keys_of_text v ⊆ stored_keys l g.
Proof.
  intros Hv x Hx. unfold stored_keys. apply elem_of_union_list.
  exists (keys_of_text v). split; [| done].
  apply list_elem_of_fmap. by exists v.
Qed.

Lemma keys_of_segments_token (t : token) (segs : list segment) :
  STok t ∈ segs -> token_key (t_key t) ∈ keys_of_segments segs.
Proof.
  induction segs as [|[c|t'] segs IH]; intros Hin.
  - by apply elem_of_nil in Hin.
  - apply elem_of_cons in Hin as [? | Hin]; [done |]. by apply IH.
  - cbn [keys_of_segments]. apply elem_of_union.
    apply elem_of_cons in Hin as [[= <-] | Hin].
    + left. by apply elem_of_singleton.
    + right. by apply IH.
Qed.

(** If the callback returns on every token, leaving [seen] as it was,
    [replaceAll] returns. *)
Lemma replace_all_returns (f : token -> seen_set -> outcome (string * seen_set))
    (segs : list segment) (seen : seen_set) :
  (forall t, STok t ∈ segs -> exists r, f t seen = Val (r, seen)) ->
  exists out, replace_all f segs seen = Val (out, seen).
Proof.
  induction segs as [|[c|t] segs IH]; intros Hf.
  - by eexists.
  - destruct IH as [out Hout]; [intros t Ht; apply Hf; by right |].
    cbn [replace_all]. rewrite Hout. by eexists.
  - destruct (Hf t) as [r Hr]; [left |].
    destruct IH as [out Hout]; [intros t' Ht'; apply Hf; by right |].
    cbn [replace_all]. rewrite Hr. cbn. rewrite Hout. by eexists.
Qed.

Lemma size_remove_key (K seen : seen_set) (k : set_key) (n : nat) :
  k ∈ K -> k ∉ seen -> (size (K ∖ seen) <= S n)%nat ->
  (size (K ∖ ({[k]} ∪ seen)) <= n)%nat.
Proof.
  intros HK Hseen Hsize.
  assert (K ∖ seen = {[k]} ∪ K ∖ ({[k]} ∪ seen)) as Heq.
  { apply set_eq. intros x.
    rewrite !elem_of_difference, !elem_of_union, elem_of_difference,
      elem_of_union, !elem_of_singleton.
    destruct (decide (x = k)) as [-> | Hne]; tauto. }
  rewrite Heq, size_union, size_singleton in Hsize; [lia |].
  apply disjoint_singleton_l. intros [_ Hx]%elem_of_difference. apply Hx.
  apply elem_of_union. left. by apply elem_of_singleton.
Qed.

(** The internal lookup of a [set] / [setList] key returns on a finite
    chain when the app carries the global map. *)
Lemma lookup_set_returns app button l g k seen fuel :
  is_chain app button l -> setGlobals app = Some g -> (length l < fuel)%nat ->
  lookup fuel app button None (Some k) true seen
  = Val (VStr <$> match button with
                  | Some _ => set_precedence l g k
                  | None => None
                  end, seen).
Proof.
  intros Hc Hg Hfuel. destruct button as [b|].
  - rewrite (lookup_set_chain _ _ l) by done.
    unfold chain_set_result, set_precedence. rewrite Hg.
    by destruct (first_defined _ l).
  - destruct fuel; [lia |]. apply lookup_no_button.
Qed.

Lemma expand_bounded (K : seen_set) app button l g :
  is_chain app button l -> setGlobals app = Some g ->
  (forall v, v ∈ stored_values l g -> keys_of_text v ⊆ K) ->
  forall n text seen,
    keys_of_text text ⊆ K -> (size (K ∖ seen) <= n)%nat ->
    exists out, expand (length l + 1 + n) app button text seen = Val (out, seen).
Proof.
  intros Hc Hg HK. induction n as [|n IH]; intros text seen Htext Hsize.
  - unfold expand, expand_with. apply replace_all_returns. intros t Ht.
    unfold replace_token. destruct (t_slash t) as [[|c sl]|]; try (by eexists).
    all: rewrite decide_True; [by eexists |].
    all: apply keys_of_segments_token, Htext in Ht.
    all: destruct (decide (token_key (t_key t) ∈ seen)) as [|Hn]; [done |].
    all: assert (token_key (t_key t) ∈ K ∖ seen) as Hx
           by (by apply elem_of_difference).
    all: assert (size (K ∖ seen) = 0%nat) as Hz%size_empty_inv by lia.
    all: by apply Hz in Hx.
  - unfold expand, expand_with. apply replace_all_returns. intros t Ht.
    apply keys_of_segments_token, Htext in Ht.
    set (k := token_key (t_key t)) in *.
    assert (exists r, (if decide (k ∈ seen) then Val (t_match t, seen)
              else
                '(value, after) ← lookup (length l + 1 + S n) app button None
                                    (Some k) false (Some ({[k]} ∪ seen));
                let seen' := default ({[k]} ∪ seen) after ∖ {[k]} in
                match value ≫= string_of_value with
                | Some v =>
                    if truthy v && bool_decide (t_fn t = Some "urlencode")
                    then Val (encodeURIComponent v, seen')
                    else if truthy v && bool_decide (t_fn t = Some "jsonString")
                    then Val (JSON_stringify v, seen')
                    else Val (v, seen')
                | None => Val (t_match t, seen')
                end) = Val (r, seen)) as Hcall.
    { case_decide as Hin; [by eexists |].
      replace (length l + 1 + S n)%nat with (S (length l + 1 + n)) by lia.
      rewrite lookup_then_expand.
      rewrite (lookup_set_returns _ _ l g) by (done || lia).
      cbn [mbind outcome_bind].
      destruct (match button with Some _ => set_precedence l g k | None => None end)
        as [v|] eqn:Hv; cbn [fmap option_fmap option_map].
      - assert (v ∈ stored_values l g) as Hst.
        { destruct button; [| done]. by eapply set_precedence_stored. }
        destruct (IH v ({[k]} ∪ seen)) as [out Hout].
        { by apply HK. }
        { by apply size_remove_key. }
        change (default {[seed_key (Some k)]} (Some ({[k]} ∪ seen)))
          with ({[k]} ∪ seen).
        rewrite Hout. cbn [mbind outcome_bind option_bind string_of_value
                             fmap option_fmap option_map].
        pose proof (seen_restored k seen Hin) as Hr.
        destruct (truthy out && bool_decide (t_fn t = Some "urlencode"));
          [| destruct (truthy out && bool_decide (t_fn t = Some "jsonString"))];
          eexists; apply (f_equal (fun s => Val (_, s)) Hr).
      - cbn [mbind option_bind]. pose proof (seen_restored k seen Hin) as Hr.
        eexists. apply (f_equal (fun s => Val (_, s)) Hr). }
    unfold replace_token. fold k.
    destruct (t_slash t) as [[|c sl]|]; try (by eexists); exact Hcall.
Qed.

(** X8.  [expand] terminates: on an app that carries the global map, for a
    button with a finite [is] chain, every text expands to a string, the
    same for every budget above a bound computed from the configuration,
    and [seen] is left unchanged. *)
Theorem expand_terminates_with_globals app button l g text seen :
  is_chain app button l -> setGlobals app = Some g ->
  exists out, forall fuel,
    (length l + 1 + size (stored_keys l g ∪ keys_of_text text) <= fuel)%nat ->
    expand fuel app button text seen = Val (out, seen).
Proof.
  intros Hc Hg.
  destruct (expand_bounded (stored_keys l g ∪ keys_of_text text) app button l g
              Hc Hg) with (n := size (stored_keys l g ∪ keys_of_text text))
              (text := text) (seen := seen) as [out Hout].
  - intros v Hv x Hx. apply elem_of_union. left. by eapply stored_keys_spec.
  - intros x Hx. apply elem_of_union. by right.
  - apply subseteq_size. intros x Hx. by apply elem_of_difference in Hx as [? _].
  - exists out. intros fuel Hfuel. by eapply expand_more_fuel.
Qed.

(** ** A cyclic [is] chain

    Nothing bounds the walk along [is]: on a record that is its own
    ancestor, the lookup of a key the record does not hold never
    returns, whatever the budget. *)
Lemma lookup_cyclic_chain_diverges app b k isLookup seen fuel :
  parent_of app (Some b) = Some b -> plain_key k -> own_set_value b k = None ->
  lookup fuel app (Some b) None (Some k) isLookup seen = Diverge.
Proof.
  intros Hp _ Hown.
  assert (forall f s, lookup f app (Some b) None (Some k) true s = Diverge) as Hint.
  { induction f as [|f IH]; intros s; [done |].
    by rewrite lookup_set_step, Hown, Hp, IH. }
  destruct isLookup; [apply Hint |].
  destruct fuel as [|fuel]; [done |]. by rewrite lookup_then_expand, Hint.
Qed.

Example lookup_cyclic_example (fuel : nat) :
  lookup fuel (with_globals ∅ app_cyclic) (Some template_cyclic) None
    (Some (KStr "q")) false None = Diverge.
Proof.
  apply lookup_cyclic_chain_diverges; [done | | done].
  apply (bool_decide_unpack _). reflexivity.
Qed.


(** ** The repository's tests, run on the embedding

    The assertions of the suite whose lookups never reach the global
    tier hold on the app the suite builds. *)

Example test_inherited_set_lookup :
  let look k := returned_string
    (lookup 5 app_inherited (Some button_main2) None (Some k) false None) in
  look (KStr "z") = Val (Some "main2-z")
  /\ look (KNum (Fin 0)) = Val (Some "main2-0")
  /\ look (KStr "a") = Val (Some "bA-a")
  /\ look (KNum (Fin 1)) = Val (Some "bA-1")
  /\ look (KStr "b") = Val (Some "bB-b")
  /\ look (KNum (Fin 2)) = Val (Some "bB-2").
Proof. repeat split; vm_compute; reflexivity. Qed.

Example test_inherited_expansions :
  returned_string
    (lookup 9 app_expansions (Some button_expansions) None (Some (KStr "x")) false None)
  = Val (Some ":!:-[:!:]-{[:!:]}-(!)")
  /\ returned_string
       (lookup 9 app_expansions (Some button_expansions) None
          (Some (KNum (Fin 0))) false None)
     = Val (Some "!-a1:b2:!-b2:!").
Proof. repeat split; vm_compute; reflexivity. Qed.

Example test_prevent_infinite_recursion :
  let look key setKey := returned_string
    (lookup 9 app_recursion (Some button_recursion) key setKey false None) in
  look None (Some (KStr "x")) = Val (Some "x${x}x")
  /\ look None (Some (KStr "y")) = Val (Some "ya${y}ay")
  /\ look None (Some (KStr "z")) = Val (Some "zaab${z}baaz")
  /\ look (Some PproxyUrl) None = Val (Some "url:zaab${z}baaz").
Proof. repeat split; vm_compute; reflexivity. Qed.

(** The assertions that need a key to be absent everywhere hold once the
    app carries a global map, and throw on the suite's own app. *)
Example test_simple_lookup_and_expansions :
  let app := with_globals ∅ (makeApp []) in
  returned_string (lookup 5 app (Some button_s1) None (Some (KStr "a")) false None)
    = Val (Some "s1-a")
  /\ returned_string (lookup 5 app (Some button_s1) None (Some (KStr "z")) false None)
     = Val None
  /\ returned_string (lookup 5 app (Some button_s1) None (Some (KNum (Fin 0))) false None)
     = Val (Some "x")
  /\ returned_string (lookup 5 app (Some button_s1) None (Some (KNum (Fin 4))) false None)
     = Val None
  /\ returned_string (lookup 5 app (Some button_simple) (Some PproxyUrl) None false None)
     = Val (Some "hello main1-z main1-0 ${a} ${4} ${z} $\\{0}")
  /\ returned_string (lookup 5 app (Some button_simple) (Some Pcommand) None false None)
     = Val (Some "t: s%20s")
  /\ returned_string (lookup 5 app (Some button_simple) None (Some (KNum (Fin 1))) false None)
     = Val (Some ":main1-0:")
  /\ returned_string (lookup 5 app (Some button_simple) None (Some (KStr "x")) false None)
     = Val (Some ":s s:").
Proof. repeat split; vm_compute; reflexivity. Qed.

Example test_simple_lookup_on_suite_app :
  returned_string
    (lookup 5 (makeApp []) (Some button_s1) None (Some (KNum (Fin 4))) false None)
  = Throw TypeError
  /\ returned_string
       (lookup 5 (makeApp []) (Some button_simple) (Some PproxyUrl) None false None)
     = Throw TypeError.
Proof. repeat split; vm_compute; reflexivity. Qed.

(** [String(x)] and [Number(s)] on values whose JavaScript results are
    well known. *)
Example number_model_samples :
  Number_toString (Fin (2 ^ 53)) = "9007199254740992"
  /\ Number_toString (Fin (2 ^ 60)) = "1152921504606847000"
  /\ Number_toString (Fin (2 ^ 70)) = "1.1805916207174113e+21"
  /\ (Number_toString <$> Number "1e21") = Some "1e+21"
  /\ (Number_toString <$> Number "007") = Some "7"
  /\ (Number_toString <$> Number "0x1F") = Some "31"
  /\ (Number_toString <$> Number "9007199254740993") = Some "9007199254740992"
  /\ (Number_toString <$> Number "17976931348623158e292")
     = Some "1.7976931348623157e+308"
  /\ Number "1e400" = Some Infinity
  /\ Number "1_000" = None
  /\ Number "x1" = None.
Proof. repeat split; vm_compute; reflexivity. Qed.


(** * Further properties of [lookup] and [expand] *)

(** ** The visited set *)

(** X1.  Whenever [expand] or [lookup] returns, the set [seen] holds exactly
    what it held at the call: each [seen.add(key)] has been undone by
    its [seen.delete(key)], however deep the expansion went. *)
Theorem seen_is_restored
    (fuel : nat) (app : ClientApp) (button : option PanelButton) :
  (forall text seen out seen',
     expand fuel app button text seen = Val (out, seen') -> seen' = seen)
  /\ (forall key setKey isLookup seen v after,
        lookup fuel app button key setKey isLookup seen = Val (v, after) ->
        after = seen).
Proof.
  split.
  - intros text seen out seen'. apply expand_keeps_seen.
  - intros key setKey isLookup seen v after. apply lookup_keeps_seen.
Qed.

Lemma seen_is_restored_witness :
  ({[KStr "q"]} : seen_set) = {[KStr "q"]}.
Proof.
  apply (proj1 (seen_is_restored 9 app_recursion (Some button_recursion))
           "${y}${z}" {[KStr "q"]} "ya${y}ayzaab${z}baaz" {[KStr "q"]}).
  vm_compute. reflexivity.
Defined.

(** ** The result of a [set] / [setList] lookup *)

(** X2.  With [key] null and a [setKey] under which a dictionary
    inherits nothing, whatever the mode and the configuration, a
    [lookup] that returns yields a string or null: never a number, a
    boolean or an object. *)
Theorem set_lookup_returns_string_or_null
    (fuel : nat) (app : ClientApp) (button : option PanelButton)
    (setKey : option set_key) (isLookup : bool) (seen : option seen_set)
    (result : option value) (after : option seen_set) :
  from_option plain_key True setKey ->
  lookup fuel app button None setKey isLookup seen = Val (result, after) ->
  result = None \/ exists s, result = Some (VStr s).
Proof.
  intros _ H. destruct result as [v|]; [right | by left].
  apply lookup_set_string_or_null in H as [s ->]. by exists s.
Qed.

Lemma set_lookup_returns_string_or_null_witness :
  Some (VStr "bB-b") = None \/ exists s, Some (VStr "bB-b") = Some (VStr s).
Proof.
  apply (set_lookup_returns_string_or_null 5 app_inherited (Some button_main2)
           (Some (KStr "b")) false None (Some (VStr "bB-b")) None).
  - apply (bool_decide_unpack _). reflexivity.
  - reflexivity.
Defined.

(** ** Literal text *)

Lemma segments_literal_prefix (a b : string) :
  no_dollar a = true ->
  segments (a ++ b) 0 = (literal_segments a ++ segments b 0)%list.
Proof.
  induction a as [|c a IH]; [done |].
  cbn [no_dollar]. intros [Hc Ha]%andb_prop.
  rewrite append_cons, segments_literal.
  - cbn [literal_segments]. by rewrite (IH Ha).
  - intros ->. done.
Qed.

Lemma replace_all_literal f (a : string) (segs : list segment) seen :
  replace_all f (literal_segments a ++ segs)%list seen
  = '(out, seen') ← replace_all f segs seen; Val (a ++ out, seen').
Proof.
  induction a as [|c a IH]; cbn [literal_segments].
  - cbn. by destruct (replace_all f segs seen) as [[]| |].
  - change ((SLit c :: literal_segments a) ++ segs)%list
      with (SLit c :: (literal_segments a ++ segs)%list).
    cbn [replace_all]. rewrite IH.
    by destruct (replace_all f segs seen) as [[]| |].
Qed.

(** X3.  Text that holds no dollar sign is copied to the output as it is,
    without any lookup: in front of the rest of a text it stays in
    front of the expansion of the rest, and alone it is the result, on
    every app, for every button and with no recursion at all. *)
Theorem expand_copies_literal_text
    (fuel : nat) (app : ClientApp) (button : option PanelButton)
    (a b : string) (seen : seen_set) :
  no_dollar a = true ->
  expand fuel app button (a ++ b) seen
    = ('(out, seen') ← expand fuel app button b seen; Val (a ++ out, seen'))
  /\ expand fuel app button a seen = Val (a, seen).
Proof.
  intros Ha. split.
  - unfold expand, expand_with.
    by rewrite segments_literal_prefix, replace_all_literal.
  - unfold expand. by apply expand_no_dollar.
Qed.

Lemma expand_copies_literal_text_witness :
  expand 0 (makeApp []) None "plain text, 100%" ∅ = Val ("plain text, 100%", ∅).
Proof.
  apply (expand_copies_literal_text 0 (makeApp []) None "plain text, 100%" "" ∅).
  reflexivity.
Defined.

(** ** A chain that never ends *)

Lemma ancestor_parent app n button :
  ancestor app n (parent_of app button) = ancestor app (S n) button.
Proof. reflexivity. Qed.

(** X4.  Nothing bounds the walk along [is].  When every ancestor of a
    button exists and none holds the key (a chain that runs into a
    cycle does that), the lookup never returns, in either mode and
    whatever the app's global map; the same holds for a property no
    ancestor defines.  The key is one under which a dictionary inherits
    nothing. *)
Theorem lookup_on_endless_chain_never_returns
    (app : ClientApp) (b : PanelButton) (fuel : nat) (isLookup : bool)
    (seen : option seen_set) :
  (forall k, plain_key k ->
     (forall n, exists r, ancestor app n (Some b) = Some r
                          /\ own_set_value r k = None) ->
     lookup fuel app (Some b) None (Some k) isLookup seen = Diverge)
  /\ (forall p,
        (forall n, exists r, ancestor app n (Some b) = Some r
                             /\ get_prop r p = None) ->
        lookup fuel app (Some b) (Some p) None isLookup seen = Diverge).
Proof.
  split.
  - intros k _ Hall.
    assert (forall f r s,
              (forall n, exists r', ancestor app n (Some r) = Some r'
                                    /\ own_set_value r' k = None) ->
              lookup f app (Some r) None (Some k) true s = Diverge) as Hint.
    { induction f as [|f IH]; intros r s Hr; [done |].
      rewrite lookup_set_step.
      destruct (Hr 0%nat) as (r0 & [= <-] & ->).
      destruct (Hr 1%nat) as (r1 & Hr1 & _). cbn [ancestor] in Hr1.
      rewrite Hr1, IH; [done |].
      intros n. specialize (Hr (S n)). cbn [ancestor] in Hr.
      by rewrite Hr1 in Hr. }
    destruct isLookup; [by apply Hint |].
    destruct fuel as [|fuel]; [done |]. by rewrite lookup_then_expand, Hint.
  - intros p Hall.
    assert (forall f r s,
              (forall n, exists r', ancestor app n (Some r) = Some r'
                                    /\ get_prop r' p = None) ->
              lookup f app (Some r) (Some p) None true s = Diverge) as Hint.
    { induction f as [|f IH]; intros r s Hr; [done |].
      rewrite lookup_prop_step.
      destruct (Hr 0%nat) as (r0 & [= <-] & ->).
      destruct (Hr 1%nat) as (r1 & Hr1 & _). cbn [ancestor] in Hr1.
      rewrite Hr1, IH; [done |].
      intros n. specialize (Hr (S n)). cbn [ancestor] in Hr.
      by rewrite Hr1 in Hr. }
    destruct isLookup; [by apply Hint |].
    destruct fuel as [|fuel]; [done |]. by rewrite lookup_then_expand, Hint.
Qed.

Lemma ancestor_cyclic (n : nat) :
  ancestor app_cyclic n (Some template_cyclic) = Some template_cyclic.
Proof. induction n as [|n IH]; [reflexivity | exact IH]. Defined.

Lemma lookup_on_endless_chain_never_returns_witness :
  lookup 50 app_cyclic (Some template_cyclic) None (Some (KStr "q")) false None
  = Diverge.
Proof.
  apply (proj1 (lookup_on_endless_chain_never_returns app_cyclic template_cyclic
                  50 false None)).
  { apply (bool_decide_unpack _). reflexivity. }
  intros n. exists template_cyclic. split; [apply ancestor_cyclic | reflexivity].
Defined.

(** ** A button without a usable [is] *)




(** ** Which keys are numbers *)

Lemma span_all (p : ascii -> bool) (s : string) :
  all_chars p s = true -> span p s = (s, "").
Proof.
  induction s as [|c s IH]; [done |].
  cbn [all_chars span]. intros [-> Hs]%andb_prop. by rewrite (IH Hs).
Qed.

(** Outside its three special forms, [Number] reads a decimal. *)
Lemma Number_is_decimal (s : string) :
  s <> "Infinity" -> has_radix_prefix s = false -> Number s = Number_decimal s.
Proof.
  intros Hinf Hrad.
  destruct s as [|[[] [] [] [] [] [] [] []] s]; try reflexivity;
    (destruct s as [|[[] [] [] [] [] [] [] []] s]; try reflexivity;
     try (by vm_compute in Hrad)).
  do 6 (destruct s as [|[[] [] [] [] [] [] [] []] s]; try reflexivity).
  destruct s; [congruence | reflexivity].
Qed.

(** X6.  A key made of decimal digits is an index into [setList]: the number
    the digits denote, leading zeros included ([${007}] is index 7).  A
    key that starts with a letter or an underscore is a [set] key, with
    one exception: [Infinity] is a number. *)
Theorem token_key_kinds (k : string) :
  (forall v, all_chars is_digit k = true -> digits_value 10 0 k = Some v ->
             k <> "" -> v < 2 ^ 53 -> token_key k = KNum (Fin v))
  /\ (forall c r, k = String c r -> is_digit c = false -> k <> "Infinity" ->
                  token_key k = KStr k)
  /\ token_key "Infinity" = KNum Infinity.
Proof.
  split; [| split; [| reflexivity]].
  - intros v Hd Hv Hne Hsmall. unfold token_key, number.
    rewrite Number_is_decimal.
    + unfold Number_decimal. rewrite (span_all _ _ Hd).
      unfold parse_digits. destruct k as [|c k]; [done |]. rewrite Hv.
      unfold round_double. by rewrite (proj2 (N.ltb_lt _ _) Hsmall).
    + intros ->. done.
    + destruct k as [|c1 [|c2 k]]; try done.
      cbn [all_chars] in Hd. apply andb_prop in Hd as [_ [H2 _]%andb_prop].
      cbn [has_radix_prefix]. apply andb_false_intro2.
      unfold is_digit in H2. apply andb_prop in H2 as [_ H2%N.leb_le].
      repeat (apply orb_false_intro); apply N.eqb_neq; lia.
  - intros c r -> Hc Hinf. unfold token_key, number.
    rewrite Number_is_decimal; [| done |].
    + unfold Number_decimal. cbn [span]. by rewrite Hc.
    + destruct r as [|c2 r]; [done |]. cbn [has_radix_prefix].
      apply andb_false_intro1. apply N.eqb_neq. intros H0.
      unfold is_digit in Hc. rewrite H0 in Hc. done.
Qed.

Lemma token_key_kinds_witness : token_key "007" = KNum (Fin 7).
Proof.
  refine (proj1 (token_key_kinds "007") 7 _ _ _ _); try reflexivity.
  discriminate.
Defined.

(** ** The value put in place of a token *)

(** X7.  A token without a transform prefix whose key is not yet visited is
    replaced by the expansion of the stored value the key resolves to,
    made for the same button with the key added to the visited set; when
    that value holds no dollar sign the token is replaced by the value
    itself. *)
Theorem token_is_replaced_by_expanded_value
    (fuel : nat) (app : ClientApp) (button : option PanelButton)
    (k v : string) (seen : seen_set) :
  word k = true -> token_key k ∉ seen ->
  lookup (S fuel) app button None (Some (token_key k)) true
    (Some ({[token_key k]} ∪ seen))
  = Val (Some (VStr v), Some ({[token_key k]} ∪ seen)) ->
  expand (S fuel) app button (token_text None k) seen
    = ('(out, _) ← expand fuel app button v ({[token_key k]} ∪ seen);
       Val (out, seen))
  /\ (no_dollar v = true ->
      expand (S fuel) app button (token_text None k) seen = Val (v, seen)).
Proof.
  intros Hk Hin Hraw.
  assert (expand (S fuel) app button (token_text None k) seen
          = ('(out, _) ← expand fuel app button v ({[token_key k]} ∪ seen);
             Val (out, seen))) as Hmain.
  { unfold expand at 1. rewrite token_text_match, expand_token_alone by done.
    unfold replace_token. cbn [mk_token t_slash t_key t_match t_fn].
    rewrite decide_False by done.
    rewrite lookup_then_expand, Hraw. cbn [mbind outcome_bind].
    change (default {[seed_key (Some (token_key k))]}
              (Some ({[token_key k]} ∪ seen)))
      with ({[token_key k]} ∪ seen).
    destruct (expand fuel app button v ({[token_key k]} ∪ seen))
      as [[out s']| |] eqn:E; try done.
    apply expand_keeps_seen in E as Hs. subst s'.
    cbn [mbind outcome_bind fmap option_fmap option_map option_bind
           string_of_value].
    pose proof (seen_restored (token_key k) seen Hin) as Hr.
    rewrite !andb_false_r.
    apply (f_equal (fun s => Val (out, s)) Hr). }
  split; [exact Hmain |].
  intros Hv. rewrite Hmain. unfold expand. by rewrite expand_no_dollar.
Qed.

Lemma token_is_replaced_by_expanded_value_witness :
  expand 3 app_BT (Some button_B) "${b}" ∅ = Val ("z", ∅).
Proof.
  refine (proj2 (token_is_replaced_by_expanded_value 2 app_BT (Some button_B)
                   "b" "z" ∅ _ _ _) _).
  - reflexivity.
  - apply not_elem_of_empty.
  - reflexivity.
  - reflexivity.
Defined.

(** ** Termination, at a concrete configuration *)

Lemma expand_terminates_with_globals_witness :
  exists out, forall fuel,
    (3 + 1 + size (stored_keys
                     [button_recursion;
                      button_of "a" (Some "b")
                        (Some [("a", "a${y}a"); ("aa", "aa${b}aa")]) None None None;
                      button_of "b" None (Some [("b", "b${z}b")]) None None None]
                     ∅ ∪ keys_of_text "url:${z}") <= fuel)%nat ->
    expand fuel (with_globals ∅ app_recursion) (Some button_recursion)
      "url:${z}" ∅ = Val (out, ∅).
Proof.
  apply (expand_terminates_with_globals (with_globals ∅ app_recursion)
           (Some button_recursion)
           [button_recursion;
            button_of "a" (Some "b")
              (Some [("a", "a${y}a"); ("aa", "aa${b}aa")]) None None None;
            button_of "b" None (Some [("b", "b${z}b")]) None None None]
           ∅ "url:${z}" ∅).
  - apply chain_step.
    apply (chain_step _ (button_of "a" (Some "b")
              (Some [("a", "a${y}a"); ("aa", "aa${b}aa")]) None None None)).
    apply (chain_step _ (button_of "b" None (Some [("b", "b${z}b")]) None None None)).
    apply chain_end.
  - reflexivity.
Defined.


(** * [expandArgument] *)

Lemma replace_each_literal f (a : string) (segs : list segment) :
  replace_each f (literal_segments a ++ segs)%list
  = out ← replace_each f segs; Val (a ++ out).
Proof.
  induction a as [|c a IH]; cbn [literal_segments].
  - cbn. by destruct (replace_each f segs).
  - change ((SLit c :: literal_segments a) ++ segs)%list
      with (SLit c :: (literal_segments a ++ segs)%list).
    cbn [replace_each]. rewrite IH. by destruct (replace_each f segs).
Qed.

Lemma argument_token_plain relativePath inherited args (fn : option string)
    (k : string) :
  fn <> Some "relativePath" ->
  argument_token relativePath inherited args (mk_token "" fn k)
  = Val (argument_text inherited args k).
Proof.
  intros Hrel. unfold argument_token, argument_text.
  cbn [mk_token t_slash t_key t_fn].
  rewrite bool_decide_eq_false_2 by done.
  by destruct (args !! k), (inherited k).
Qed.

(** X9.  [expandArgument] copies the text in front of a token, puts
    [args[key]] in place of the token exactly as stored (for a key
    [args] does not hold: the text of the member of that name that
    objects inherit, or nothing when there is none) and goes on with
    the rest of the text.  The value is not scanned again, and the key
    is used as a string even when it is a number. *)
Theorem expandArgument_substitutes_once
    (relativePath : string -> outcome string)
    (inherited : string -> option string) (args : gmap string string)
    (pre : string) (fn : option string) (k rest : string) :
  no_dollar pre = true -> word_opt fn = true -> word k = true ->
  fn <> Some "relativePath" ->
  expandArgument relativePath inherited (pre ++ token_text fn k ++ rest) args
  = (out ← expandArgument relativePath inherited rest args;
     Val (pre ++ argument_text inherited args k ++ out)).
Proof.
  intros Hpre Hfn Hk Hrel. unfold expandArgument.
  rewrite segments_literal_prefix, token_text_match, segments_token by done.
  rewrite replace_each_literal. cbn [replace_each].
  rewrite argument_token_plain by done. cbn [mbind outcome_bind].
  by destruct (replace_each _ (segments rest 0)).
Qed.

Lemma expandArgument_substitutes_once_witness :
  expandArgument (fun _ => Throw TypeError) (fun _ => None) "-${type}h"
    {["type" := "${x}"]}
  = Val "-${x}h".
Proof.
  change "-${type}h" with ("-" ++ token_text None "type" ++ "h").
  refine (eq_trans (expandArgument_substitutes_once (fun _ => Throw TypeError)
                      (fun _ => None) {["type" := "${x}"]} "-" None "type" "h"
                      _ _ _ _) _);
    try reflexivity.
  discriminate.
Defined.

Lemma expandArgument_token_alone relativePath inherited args sl fn k :
  all_chars is_backslash sl = true -> word_opt fn = true -> word k = true ->
  expandArgument relativePath inherited (t_match (mk_token sl fn k)) args
  = argument_token relativePath inherited args (mk_token sl fn k).
Proof.
  intros Hsl Hfn Hk. unfold expandArgument.
  rewrite <- (append_nil_r (t_match _)), segments_token by done.
  cbn [replace_each segments].
  destruct (argument_token relativePath inherited args _) as [r| |]; try done.
  cbn. by rewrite append_nil_r.
Qed.

(** X10.  An escaped token loses one backslash in [expandArgument] as it
    does in [expand], and is never looked up: not even a [relativePath]
    prefix is acted upon. *)
Theorem expandArgument_peels_escape
    (relativePath : string -> outcome string)
    (inherited : string -> option string) (args : gmap string string)
    (fn : option string) (k : string) (n fuel : nat) (app : ClientApp)
    (button : option PanelButton) (seen : seen_set) :
  word_opt fn = true -> word k = true ->
  expandArgument relativePath inherited (escaped_token (S n) fn k) args
    = Val (escaped_token n fn k)
  /\ expand fuel app button (escaped_token (S n) fn k) seen
    = Val (escaped_token n fn k, seen).
Proof.
  intros Hfn Hk. split.
  - rewrite escaped_token_match, expandArgument_token_alone
      by (done || apply all_backslashes).
    reflexivity.
  - unfold expand.
    rewrite escaped_token_match, expand_token_alone
      by (done || apply all_backslashes).
    reflexivity.
Qed.

Lemma expandArgument_peels_escape_witness :
  expandArgument (fun _ => Throw TypeError) (fun _ => None)
    "$\{relativePath:f}" ∅
  = Val "${relativePath:f}".
Proof.
  apply (expandArgument_peels_escape (fun _ => Throw TypeError) (fun _ => None)
           ∅ (Some "relativePath") "f" 0 0 (makeApp []) None ∅).
  - reflexivity.
  - reflexivity.
Defined.

(** X11.  Where the two expansions part, for a key that is not a
    number and names no inherited member, on a button without [is]
    whose own [set] is the argument map.  A key the map holds with a
    value free of dollar signs is replaced by that value by both.  A
    key the map does not hold is deleted by [expandArgument]; [expand]
    then reads [app.setGlobals]: it keeps the token text when the app
    carries a global map without the key, and throws a TypeError on an
    app without the map. *)
Theorem expand_and_expandArgument
    (relativePath : string -> outcome string)
    (inherited : string -> option string) (args : gmap string string)
    (app : ClientApp) (b : PanelButton) (k : string) (fuel : nat) :
  set b = Some args -> is_ b = None ->
  word k = true -> Number k = None -> k ∉ Object_prototype_names ->
  (forall v, args !! k = Some v -> no_dollar v = true ->
     expand (3 + fuel) app (Some b) (token_text None k) ∅ = Val (v, ∅)
     /\ expandArgument relativePath inherited (token_text None k) args = Val v)
  /\ (args !! k = None -> inherited k = None ->
      expandArgument relativePath inherited (token_text None k) args = Val ""
      /\ expand (3 + fuel) app (Some b) (token_text None k) ∅
         = match setGlobals app with
           | Some g =>
               match g !! k with
               | Some v =>
                   '(out, _) ← expand (2 + fuel) app (Some b) v {[KStr k]};
                   Val (out, ∅)
               | None => Val (token_text None k, ∅)
               end
           | None => Throw TypeError
           end).
Proof.
  intros Hset His Hk Hnum _.
  assert (token_key k = KStr k) as Hkey by (unfold token_key, number; by rewrite Hnum).
  assert (forall s, lookup (2 + S fuel) app (Some b) None (Some (KStr k)) true s
                    = match args !! k with
                      | Some v => Val (Some (VStr v), s)
                      | None =>
                          match setGlobals app with
                          | Some g => Val (VStr <$> g !! k, s)
                          | None => Throw TypeError
                          end
                      end) as Hraw.
  { intros s. cbn [Nat.add].
    assert (parent_of app (Some b) = None) as Hp
      by (cbn [parent_of]; by rewrite His).
    rewrite lookup_set_step, Hp, lookup_no_button.
    cbn [own_set_value property_name]. rewrite Hset.
    cbn [mbind option_bind]. destruct (args !! k); [done |].
    by destruct (setGlobals app). }
  assert (expandArgument relativePath inherited (token_text None k) args
          = Val (argument_text inherited args k)) as Harg.
  { rewrite token_text_match, expandArgument_token_alone by done.
    apply argument_token_plain. discriminate. }
  assert (expand (3 + fuel) app (Some b) (token_text None k) ∅
          = replace_token (lookup (3 + fuel)) app (Some b) (mk_token "" None k) ∅)
    as Hexp.
  { unfold expand. by rewrite token_text_match, expand_token_alone. }
  assert (lookup (3 + fuel) app (Some b) None (Some (KStr k)) false
            (Some ({[KStr k]} ∪ ∅))
          = '(result, seen1) ← lookup (2 + S fuel) app (Some b) None
                                  (Some (KStr k)) true (Some ({[KStr k]} ∪ ∅));
            match result with
            | Some (VStr s) =>
                '(out, after) ← expand (2 + fuel) app (Some b) s
                                  (default {[seed_key (Some (KStr k))]} seen1);
                Val (Some (VStr out), (fun _ => after) <$> seen1)
            | _ => Val (result, seen1)
            end) as Hdef.
  { change (3 + fuel)%nat with (S (2 + fuel)). by rewrite lookup_then_expand. }
  split.
  - intros v Hv Hnd. split; [| by rewrite Harg; unfold argument_text; rewrite Hv].
    rewrite Hexp.
    rewrite (replace_token_resolved (3 + fuel) app (Some b) None k ∅
               (Some (VStr v)) (Some ({[token_key k]} ∪ ∅)));
      [cbn; by rewrite !andb_false_r | apply not_elem_of_empty |].
    rewrite Hkey, Hdef, Hraw, Hv. cbn [mbind outcome_bind].
    unfold expand. rewrite expand_no_dollar by done. done.
  - intros Hv Hinh.
    split; [by rewrite Harg; unfold argument_text; rewrite Hv, Hinh |].
    rewrite Hexp. unfold replace_token. cbn [mk_token t_slash t_key t_match t_fn].
    rewrite decide_False by apply not_elem_of_empty.
    rewrite Hkey, Hdef, Hraw, Hv.
    destruct (setGlobals app) as [g|]; [| done].
    destruct (g !! k) as [v|].
    2:{ cbn. apply (f_equal (fun s => Val (token_text None k, s))).
        apply seen_restored, not_elem_of_empty. }
    cbn [fmap option_fmap option_map mbind outcome_bind default]. unfold id.
    assert (({[KStr k]} ∪ ∅ : seen_set) = {[KStr k]}) as Hu
      by apply (right_id_L _ _).
    rewrite !Hu.
    destruct (expand (2 + fuel) app (Some b) v {[KStr k]})
      as [[out s']| |] eqn:E; try done.
    apply expand_keeps_seen in E as ->.
    cbn [mbind outcome_bind option_bind string_of_value fmap option_fmap
           option_map default].
    rewrite !andb_false_r.
    apply (f_equal (fun s => Val (out, s))).
    apply difference_diag_L.
Qed.

Lemma expand_and_expandArgument_witness :
  expandArgument (fun _ => Throw TypeError) (fun _ => None) "${z}"
    (list_to_map [("a", "s1-a")])
  = Val ""
  /\ expand 3 (makeApp []) (Some button_s1) "${z}" ∅ = Throw TypeError.
Proof.
  refine (proj2 (expand_and_expandArgument (fun _ => Throw TypeError)
                   (fun _ => None)
                   (list_to_map [("a", "s1-a")]) (makeApp [])
                   button_s1 "z" 0 _ _ _ _ _) _ _); try reflexivity.
  apply (bool_decide_unpack _). reflexivity.
Defined.


(** * [addToken] *)

Lemma prefix_nil (s : string) : String.prefix "" s = true.
Proof. by destruct s. Qed.

Lemma prefix_app (d a b : string) :
  String.prefix d a = true -> String.prefix d (a ++ b) = true.
Proof.
  revert a. induction d as [|x d IH]; intros a; [intros _; apply prefix_nil |].
  destruct a as [|y a]; [discriminate |]. rewrite append_cons. cbn [String.prefix].
  destruct (ascii_dec x y); [apply IH | discriminate].
Qed.

Lemma prefix_self_app (d b : string) : String.prefix d (d ++ b) = true.
Proof.
  induction d as [|x d IH]; [apply prefix_nil |]. rewrite append_cons.
  cbn [String.prefix]. by destruct (ascii_dec x x).
Qed.

Lemma includes_unfold (s d : string) :
  includes s d
  = String.prefix d s
    || match s with EmptyString => false | String _ s' => includes s' d end.
Proof. by destruct s. Qed.

Lemma includes_app_l (a b d : string) :
  includes a d = true -> includes (a ++ b) d = true.
Proof.
  induction a as [|x a IH]; rewrite includes_unfold.
  - rewrite orb_false_r. intros H. rewrite append_nil_l, includes_unfold.
    by rewrite (prefix_app d "" b H : String.prefix d b = true).
  - intros [H | H]%orb_prop; rewrite append_cons, includes_unfold.
    + by rewrite (prefix_app d (String x a) b H
                   : String.prefix d (String x (a ++ b)) = true).
    + rewrite (IH H). apply orb_true_r.
Qed.

Lemma includes_app_r (a b d : string) : includes (a ++ d ++ b) d = true.
Proof.
  induction a as [|x a IH].
  - rewrite append_nil_l, includes_unfold. by rewrite prefix_self_app.
  - rewrite append_cons, includes_unfold, IH. apply orb_true_r.
Qed.

(** X12.  Once [addToken] has added a token, the url holds the delimiter, so
    every further token is joined to it with an ampersand: the
    delimiter separates the url from its first token only. *)
Theorem addToken_then_ampersand
    (url delimiter key1 key2 : string) (value1 value2 : option string) :
  includes (addToken url delimiter key1 value1) delimiter = true
  /\ addToken (addToken url delimiter key1 value1) delimiter key2 value2
     = addToken url delimiter key1 value1 ++ "&"
       ++ match value2 with
          | Some v => key2 ++ "=" ++ encodeURIComponent v
          | None => key2
          end.
Proof.
  assert (includes (addToken url delimiter key1 value1) delimiter = true) as H.
  { unfold addToken. destruct (includes url delimiter) eqn:E.
    - by rewrite append_assoc, includes_app_l.
    - rewrite append_assoc. apply includes_app_r. }
  split; [exact H |].
  unfold addToken at 1. by rewrite H, append_assoc.
Qed.

(** * What [encodeURIComponent] lets through *)

Lemma all_chars_app (p : ascii -> bool) (a b : string) :
  all_chars p (a ++ b) = all_chars p a && all_chars p b.
Proof.
  induction a as [|x a IH]; [done |].
  rewrite append_cons. cbn [all_chars]. by rewrite IH, andb_assoc.
Qed.

Lemma includes_needs_first_char (p : ascii -> bool) (s : string) (c : ascii)
    (rest : string) :
  all_chars p s = true -> p c = false -> includes s (String c rest) = false.
Proof.
  intros Hs Hc. induction s as [|x s IH]; [done |].
  cbn [all_chars] in Hs. apply andb_prop in Hs as [Hx Hs].
  rewrite includes_unfold, (IH Hs), orb_false_r. cbn [String.prefix].
  destruct (ascii_dec c x) as [-> |]; [congruence | done].
Qed.

(** X13.  The [urlencode] transform and the value that [addToken] appends
    consist of unreserved characters and percent escapes only: whatever
    the value, the encoded text holds no ampersand, equals sign,
    question mark, hash, slash, space or other separator. *)
Theorem encoded_value_has_no_separator (v : string) :
  all_chars uri_output_char (encodeURIComponent v) = true
  /\ (forall c rest, uri_output_char c = false ->
        includes (encodeURIComponent v) (String c rest) = false)
  /\ includes (encodeURIComponent v) "&" = false
  /\ includes (encodeURIComponent v) "=" = false
  /\ includes (encodeURIComponent v) "?" = false.
Proof.
  assert (all_chars uri_output_char (encodeURIComponent v) = true) as H.
  { induction v as [|c v IH]; [done |].
    cbn [encodeURIComponent]. rewrite all_chars_app, IH, andb_true_r.
    destruct c as [[] [] [] [] [] [] [] []]; reflexivity. }
  split; [exact H |].
  assert (forall c rest, uri_output_char c = false ->
            includes (encodeURIComponent v) (String c rest) = false) as H2.
  { intros c rest Hc. by eapply includes_needs_first_char. }
  split; [exact H2 |]. repeat split; by apply H2.
Qed.

Lemma encoded_value_has_no_separator_witness :
  includes (encodeURIComponent "a&b=c") "&" = false.
Proof.
  apply (proj1 (proj2 (encoded_value_has_no_separator "a&b=c")) "&"%char "").
  reflexivity.
Defined.

(** * [clamp] *)

(** X14.  Without [wrap], [clamp] returns [x] when it lies between the
    bounds and the nearer bound otherwise, so a result within the
    bounds whenever [min <= max]; when the bounds are crossed ([max]
    below [min]) it returns [min]. *)
Theorem clamp_bounds (x min max : Z) :
  exists r, clamp x min max false = Some r
    /\ ((min <= max -> min <= r <= max)
        /\ (min <= x <= max -> r = x)
        /\ (x < min -> r = min)
        /\ (min <= max -> max < x -> r = max)
        /\ (max < min -> r = min))%Z.
Proof.
  exists (Z.max min (Z.min max x)). split; [reflexivity |].
  repeat split; lia.
Qed.

Lemma clamp_bounds_witness :
  exists r, clamp 9 0 5 false = Some r /\ r = 5%Z.
Proof.
  destruct (clamp_bounds 9 0 5) as (r & Hr & _ & _ & _ & Hmax & _).
  exists r. split; [exact Hr | apply Hmax; lia].
Defined.

(** Below [2^53] in absolute value every integer is a double. *)
Lemma round_int_small (z : Z) :
  (Z.abs z < 2 ^ 53)%Z -> round_int z = Some z.
Proof.
  intros Hz. unfold round_int, round_double.
  assert (Z.abs_N z < 2 ^ 53) as Hn.
  { apply N2Z.inj_lt. rewrite N2Z.inj_abs_N. exact Hz. }
  rewrite (proj2 (N.ltb_lt _ _) Hn). f_equal.
  rewrite N2Z.inj_abs_N. lia.
Qed.

Lemma clamp_wrap_value (y min max : Z) :
  (Z.abs y <= 2 ^ 52 -> Z.abs min <= 2 ^ 51 -> Z.abs max <= 2 ^ 51 ->
   min <= max ->
   exists r, clamp y min max true = Some r
     /\ min <= r <= max
     /\ exists q, r = y + q * (max + 1 - min))%Z.
Proof.
  intros Hy Hmin Hmax Hmm.
  assert (2 ^ 51 = 2251799813685248)%Z as E51 by reflexivity.
  assert (2 ^ 52 = 4503599627370496)%Z as E52 by reflexivity.
  assert (2 ^ 53 = 9007199254740992)%Z as E53 by reflexivity.
  pose proof (Z.quot_rem' (y - min) (max + 1 - min)) as Hqr.
  pose proof (Z.rem_bound_abs (y - min) (max + 1 - min) ltac:(lia)) as Hb.
  unfold clamp. cbv zeta.
  rewrite (round_int_small (max + 1)) by lia. cbn [mbind option_bind].
  rewrite (round_int_small (max + 1 - min)), (round_int_small (y - min)) by lia.
  unfold js_rem.
  destruct (Z.eqb_spec (max + 1 - min) 0) as [| _]; [lia |].
  cbn [mbind option_bind].
  set (r := Z.rem (y - min) (max + 1 - min)) in *.
  set (q := ((y - min) ÷ (max + 1 - min))%Z) in *.
  destruct (Z.ltb_spec r 0).
  - rewrite round_int_small by lia. eexists. split; [reflexivity |].
    split; [lia |]. exists (1 - q)%Z. lia.
  - rewrite round_int_small by lia. eexists. split; [reflexivity |].
    split; [lia |]. exists (- q)%Z. lia.
Qed.

Lemma congruent_in_range (y z min max : Z) :
  (min <= y <= max -> min <= z <= max ->
   (exists q, y = z + q * (max + 1 - min)) -> y = z)%Z.
Proof.
  intros Hy Hz [q Hq].
  destruct (Z.lt_trichotomy q 0) as [Hq0 | [-> | Hq0]]; [| lia |].
  - assert (q * (max + 1 - min) <= - (max + 1 - min))%Z by nia. lia.
  - assert (max + 1 - min <= q * (max + 1 - min))%Z by nia. lia.
Qed.

(** X15.  With [wrap] and [min <= max], on integers of absolute value
    at most [2^51] (where no sum or difference is rounded), [clamp]
    returns the one value between the bounds that differs from [x] by a
    multiple of the number of values in the range; so a value in the
    range is returned as it is, the step above [max] lands on [min] and
    the step below [min] on [max].  When the range is empty
    ([max = min - 1]) the result is NaN. *)
Theorem clamp_wraps (x min max : Z) :
  (Z.abs x <= 2 ^ 51 -> Z.abs min <= 2 ^ 51 -> Z.abs max <= 2 ^ 51 ->
   (min <= max ->
    (exists r, clamp x min max true = Some r
       /\ min <= r <= max
       /\ (exists q, r = x + q * (max + 1 - min))
       /\ (min <= x <= max -> r = x))
    /\ clamp (max + 1) min max true = Some min
    /\ clamp (min - 1) min max true = Some max)
   /\ (max = min - 1 -> clamp x min max true = None))%Z.
Proof.
  intros Hx Hmin Hmax.
  assert (2 ^ 51 = 2251799813685248)%Z as E51 by reflexivity.
  assert (2 ^ 52 = 4503599627370496)%Z as E52 by reflexivity.
  assert (2 ^ 53 = 9007199254740992)%Z as E53 by reflexivity.
  split.
  - intros Hmm. split; [| split].
    + destruct (clamp_wrap_value x min max) as (r & Hr & Hin & Hq);
        [lia | done | done | done |].
      exists r. repeat split; try done; try lia.
      intros Hxr. by apply (congruent_in_range r x min max).
    + destruct (clamp_wrap_value (max + 1) min max)
        as (r & -> & Hin & [q Hq]); [lia | done | done | done |].
      f_equal. apply (congruent_in_range r min min max); [done | lia |].
      exists (q + 1)%Z. lia.
    + destruct (clamp_wrap_value (min - 1) min max)
        as (r & -> & Hin & [q Hq]); [lia | done | done | done |].
      f_equal. apply (congruent_in_range r max min max); [done | lia |].
      exists (q - 1)%Z. lia.
  - intros ->. unfold clamp. cbv zeta.
    rewrite (round_int_small (min - 1 + 1)) by lia. cbn [mbind option_bind].
    rewrite (round_int_small (min - 1 + 1 - min)), (round_int_small (x - min))
      by lia.
    unfold js_rem.
    replace (min - 1 + 1 - min)%Z with 0%Z by lia. reflexivity.
Qed.

Lemma clamp_wraps_witness : clamp 6 0 5 true = Some 0%Z.
Proof.
  refine (proj1 (proj2 (proj1 (clamp_wraps 5 0 5 _ _ _) _))); vm_compute;
    congruence.
Defined.

(** Beyond that range the differences are rounded: the result need not
    differ from [x] by a multiple of the range. *)
Example clamp_rounds :
  clamp (2 ^ 53) (-1) 5 true = Some 3%Z.
Proof. vm_compute. reflexivity. Qed.


(** * The type verifier *)

Section VerifierFacts.

Context {num : Type} `{!Engine num}.

Implicit Types (c : IsContext (num := num)) (key : option string)
  (l : list (json num)) (m : list (string * json num)).

(** ** Throwing *)

Lemma throw_printable {T} c expected text :
  to_string (ctx_value c) = Some text ->
  throw_TvError (T := T) c expected = Rejected (new_TvError c expected text).
Proof. intros H. unfold throw_TvError. by rewrite H. Qed.

Lemma throw_unprintable {T} c expected :
  to_string (ctx_value c) = None ->
  throw_TvError (T := T) c expected = Crashed.
Proof. intros H. unfold throw_TvError. by rewrite H. Qed.

(** ** Sub-contexts *)

Lemma isIn_index key l (i : nat) :
  isIn {| ctx_key := key; ctx_value := Data (JArr l) |} (Index i)
  = Verified (item_context key i (nth i l JUndefined)).
Proof. reflexivity. Qed.

Lemma isIn_own key m (k : string) (x : json num) :
  own_property m k = Some x ->
  isIn {| ctx_key := key; ctx_value := Data (JObj m) |} (Field k)
  = Verified (property_context key k x).
Proof.
  intros H. unfold isIn, property_context. cbn [ctx_value ctx_key is_object get_field].
  by rewrite H.
Qed.

Lemma isIn_missing key m (k : string) :
  own_property m k = None -> member (JObj m) k = Data JUndefined ->
  isIn {| ctx_key := key; ctx_value := Data (JObj m) |} (Field k)
  = Verified (property_context key k JUndefined).
Proof.
  intros H Hm. unfold isIn, property_context.
  cbn [ctx_value ctx_key is_object get_field]. by rewrite H, Hm.
Qed.

(** ** Arrays *)

Lemma verify_items_all {T} (fn : IsA T) key l (n i : nat) (vs : list T) :
  length vs = n ->
  (forall j x v, l !! (i + j)%nat = Some x -> vs !! j = Some v ->
     fn (item_context key (i + j) x) = Verified v) ->
  (i + n <= length l)%nat ->
  verify_items fn {| ctx_key := key; ctx_value := Data (JArr l) |} i n
  = Verified vs.
Proof.
  revert i vs. induction n as [|n IH]; intros i vs Hlen Hall Hn.
  - by destruct vs.
  - destruct vs as [|v vs]; [done |]. cbn [verify_items].
    unfold at_key. rewrite isIn_index. cbn [checked_bind].
    destruct (lookup_lt_is_Some_2 l i ltac:(lia)) as [x Hx].
    rewrite (nth_lookup_Some _ _ _ _ Hx).
    pose proof (Hall 0%nat x v) as H0. rewrite Nat.add_0_r in H0.
    rewrite (H0 Hx eq_refl). cbn [checked_bind].
    rewrite (IH (S i) vs); [done | by injection Hlen | | lia].
    intros j y w Hy Hw. replace (S i + j)%nat with (i + S j)%nat in * by lia.
    by apply Hall.
Qed.

Lemma verify_items_first_failure {T} (fn : IsA T) key l (n i d : nat)
    (x : json num) :
  (i + n <= length l)%nat -> (d < n)%nat ->
  l !! (i + d)%nat = Some x ->
  (forall j y, (j < d)%nat -> l !! (i + j)%nat = Some y ->
     exists v, fn (item_context key (i + j) y) = Verified v) ->
  verify_items fn {| ctx_key := key; ctx_value := Data (JArr l) |} i n
  = checked_bind (fn (item_context key (i + d) x)) (fun _ => Crashed)
    \/ exists v, fn (item_context key (i + d) x) = Verified v.
Proof.
  revert i d. induction n as [|n IH]; intros i d Hn Hd Hx Hpre; [lia |].
  cbn [verify_items]. unfold at_key. rewrite isIn_index. cbn [checked_bind].
  destruct d as [|d].
  - rewrite Nat.add_0_r in *. rewrite (nth_lookup_Some _ _ _ _ Hx).
    destruct (fn (item_context key i x)) as [v| |]; [right; by exists v | |];
      by left.
  - destruct (lookup_lt_is_Some_2 l i ltac:(lia)) as [y Hy].
    rewrite (nth_lookup_Some _ _ _ _ Hy).
    destruct (Hpre 0%nat y ltac:(lia)) as [v Hv]; [by rewrite Nat.add_0_r |].
    rewrite Nat.add_0_r in Hv. rewrite Hv. cbn [checked_bind].
    destruct (IH (S i) d ltac:(lia) ltac:(lia)) as [E | E].
    + by replace (S i + d)%nat with (i + S d)%nat by lia.
    + intros j z Hj Hz. replace (S i + j)%nat with (i + S j)%nat in * by lia.
      apply Hpre; [lia | done].
    + left. replace (S i + d)%nat with (i + S d)%nat in E by lia.
      rewrite E. by destruct (fn (item_context key (i + S d) x)).
    + right. by replace (S i + d)%nat with (i + S d)%nat in E by lia.
Qed.

(** X16.  [isArrayOf(fn)] checks the elements in order, each under the
    key path of the array followed by its index in brackets.  It
    returns the list of the elements' results when [fn] accepts every
    element, and otherwise throws, unchanged, the error [fn] throws for
    the first element it does not accept; what is no array is rejected
    as such before any element is looked at. *)
Theorem isArrayOf_all_or_first_failure {T} (fn : IsA T) key l :
  (forall vs, length vs = length l ->
     (forall i x v, l !! i = Some x -> vs !! i = Some v ->
        fn (item_context key i x) = Verified v) ->
     isArrayOf fn {| ctx_key := key; ctx_value := Data (JArr l) |}
     = Verified vs)
  /\ (forall i x e, l !! i = Some x ->
        (forall j y, (j < i)%nat -> l !! j = Some y ->
           exists v, fn (item_context key j y) = Verified v) ->
        fn (item_context key i x) = Rejected e ->
        isArrayOf fn {| ctx_key := key; ctx_value := Data (JArr l) |}
        = Rejected e)
  /\ (forall v text, is_array v = false -> to_string v = Some text ->
        isArrayOf fn {| ctx_key := key; ctx_value := v |}
        = Rejected (new_TvError {| ctx_key := key; ctx_value := v |}
                      "array" text)).
Proof.
  split; [| split].
  - intros vs Hlen Hall. unfold isArrayOf. cbn [ctx_value].
    apply verify_items_all; [done | apply Hall | done].
  - intros i x e Hx Hpre He. unfold isArrayOf. cbn [ctx_value].
    destruct (verify_items_first_failure fn key l (length l) 0 i x)
      as [E | [v Hv]]; try done.
    + by apply lookup_lt_Some in Hx.
    + cbn [Nat.add] in E. by rewrite E, He.
    + cbn [Nat.add] in Hv. congruence.
  - intros v text Hv Ht. unfold isArrayOf. cbn [ctx_value].
    destruct v as [[]|]; try done; by apply throw_printable.
Qed.

(** ** Alternatives *)

Lemma try_each_verified {T} (pre : list (IsA T)) (fn : IsA T) post c types
    (v : T) :
  Forall (fun f => forall v', f c <> Verified v') pre ->
  fn c = Verified v ->
  try_each (pre ++ fn :: post) c types = Verified v.
Proof.
  intros Hpre Hv. revert types.
  induction Hpre as [|f pre Hf _ IH]; intros types; cbn [app try_each].
  - by rewrite Hv.
  - destruct (f c) as [v'| |] eqn:E; [by destruct (Hf v') | apply IH..].
Qed.

Lemma try_each_rejected {T} (fns : list (IsA T)) c types
    (errors : list TvError) (text : string) :
  to_string (ctx_value c) = Some text ->
  Forall2 (fun fn e => fn c = Rejected e) fns errors ->
  try_each fns c types
  = Rejected (new_TvError c
                (join_types (types ++ (alternative_name c <$> errors))%list)
                text).
Proof.
  intros Ht Hall. revert types.
  induction Hall as [|f e fns errors Hf _ IH]; intros types; cbn [try_each].
  - rewrite app_nil_r. by apply throw_printable.
  - rewrite Hf, IH. cbn [fmap list_fmap]. by rewrite <- app_assoc.
Qed.

Lemma try_each_unprintable {T} (fns : list (IsA T)) c types :
  to_string (ctx_value c) = None ->
  Forall (fun f => forall v, f c <> Verified v) fns ->
  try_each fns c types = Crashed.
Proof.
  intros Ht Hall. revert types.
  induction Hall as [|f fns Hf _ IH]; intros types; cbn [try_each].
  - by apply throw_unprintable.
  - destruct (f c) as [v| |] eqn:E; [by destruct (Hf v) | apply IH..].
Qed.

(** X17.  [isOneOf] returns what the first alternative that accepts the
    value returns.  When every alternative throws a [TvError], it
    throws one for its own key whose expected type lists the
    alternatives in order, separated by bars: the expected type of an
    alternative that failed at this key, and the whole message, in
    brackets, of one that failed further down. *)
Theorem isOneOf_first_success_or_all_names {T} (fns : list (IsA T)) c :
  (forall pre fn post v, fns = (pre ++ fn :: post)%list ->
     Forall (fun f => forall v', f c <> Verified v') pre ->
     fn c = Verified v -> isOneOf fns c = Verified v)
  /\ (forall errors text, to_string (ctx_value c) = Some text ->
        Forall2 (fun fn e => fn c = Rejected e) fns errors ->
        isOneOf fns c
        = Rejected (new_TvError c
                      (join_types (alternative_name c <$> errors)) text)).
Proof.
  split.
  - intros pre fn post v -> Hpre Hv. by apply try_each_verified.
  - intros errors text Ht Hall. unfold isOneOf.
    by rewrite (try_each_rejected fns c [] errors text).
Qed.

(** ** Optional values *)

Lemma isMaybe_present {T} (fn : IsA T) c (v : T) :
  fn c = Verified v -> isMaybe fn c = Verified (Some v).
Proof. intros H. unfold isMaybe, isOneOf. cbn [try_each]. by rewrite H. Qed.

Lemma isMaybe_missing {T} (fn : IsA T) c :
  ctx_value c = Data JUndefined -> (forall v, fn c <> Verified v) ->
  isMaybe fn c = Verified None.
Proof.
  intros Hu Hfn. unfold isMaybe, isOneOf. cbn [try_each].
  unfold isUndefined, isConstant. rewrite Hu. cbn [is_constant checked_bind].
  destruct (fn c) as [v| |]; [by destruct (Hfn v) | done..].
Qed.

(** X18.  [isMaybe(fn)] returns what [fn] returns when [fn] accepts the
    value, and undefined when the value is undefined and [fn] does not
    accept it.  Anything else is an error, null included: when [fn]
    rejects a value that is not undefined, the error names what [fn]
    expected, followed by [| undefined]. *)
Theorem isMaybe_missing_or_present {T} (fn : IsA T) c :
  (forall v, fn c = Verified v -> isMaybe fn c = Verified (Some v))
  /\ (ctx_value c = Data JUndefined -> (forall v, fn c <> Verified v) ->
      isMaybe fn c = Verified None)
  /\ (forall e text, ctx_value c <> Data JUndefined ->
        to_string (ctx_value c) = Some text -> fn c = Rejected e ->
        isMaybe fn c
        = Rejected (new_TvError c (alternative_name c e ++ " | undefined")
                      text)).
Proof.
  split; [apply isMaybe_present |]. split; [apply isMaybe_missing |].
  intros e text Hu Ht He. unfold isMaybe, isOneOf. cbn [try_each].
  rewrite He. cbn [checked_bind app].
  unfold isUndefined, isConstant.
  assert (is_constant (ctx_value c) CUndefined = false) as ->.
  { destruct (ctx_value c) as [[]|]; try done. }
  rewrite throw_printable with (text := text) by done.
  cbn [checked_bind try_each app]. rewrite (throw_printable c _ text Ht).
  do 2 f_equal. unfold alternative_name at 2.
  cbn [new_TvError err_key err_expected]. by rewrite String.eqb_refl.
Qed.

(** ** A value that cannot be printed *)

(** X19.  The constructor of [TvError] prints the observed value.  An
    object that has a property named [toString] cannot be printed, nor
    can an array that holds one; for such a value no verifier that
    rejects it throws a [TvError]: a TypeError is thrown instead, and
    [isOneOf], which catches it, ends in the same way. *)
Theorem unprintable_value_is_not_reported c :
  to_string (ctx_value c) = None ->
  isString c = Crashed /\ isNumber c = Crashed /\ isBoolean c = Crashed
  /\ (forall x, isConstant x c = Crashed)
  /\ (forall T (fn : IsA T), is_array (ctx_value c) = false ->
        isArrayOf fn c = Crashed)
  /\ (forall T (fns : list (IsA T)),
        Forall (fun f => forall v, f c <> Verified v) fns ->
        isOneOf fns c = Crashed)
  /\ (forall m x, own_property m "toString" = Some x ->
        to_string (Data (JObj m)) = None
        /\ to_string (Data (JArr [JObj m])) = None).
Proof.
  intros Ht. repeat split.
  - unfold isString. destruct (ctx_value c) as [[]|] eqn:E; try done;
      by apply throw_unprintable; rewrite E.
  - unfold isNumber. destruct (ctx_value c) as [[]|] eqn:E; try done;
      by apply throw_unprintable; rewrite E.
  - unfold isBoolean. destruct (ctx_value c) as [[| |[]| | | |]|] eqn:E;
      try done; by apply throw_unprintable; rewrite E.
  - intros x. unfold isConstant.
    destruct (is_constant (ctx_value c) x) eqn:E;
      [| by apply throw_unprintable].
    destruct (ctx_value c) as [[]|], x; done.
  - intros T fn Ha. unfold isArrayOf.
    destruct (ctx_value c) as [[]|] eqn:E; try done;
      by apply throw_unprintable; rewrite E.
  - intros T fns Hall. by apply try_each_unprintable.
  - cbn. by rewrite H.
  - cbn. by rewrite H.
Qed.

(** ** Objects *)

Lemma own_property_app m m' (k : string) :
  own_property (m ++ m')%list k
  = match own_property m k with
    | Some x => Some x
    | None => own_property m' k
    end.
Proof.
  induction m as [|[k' x] m IH]; [done |]. cbn [app own_property].
  by destruct (String.eqb k' k).
Qed.

Lemma own_property_None m (k : string) :
  k ∉ m.*1 -> own_property m k = None.
Proof.
  induction m as [|[k' x] m IH]; [done |]. cbn [own_property fmap list_fmap fst].
  intros Hk. apply not_elem_of_cons in Hk as [Hne Hk].
  destruct (String.eqb_spec k' k); [congruence | by apply IH].
Qed.

Lemma own_property_middle pre (k : string) (x : json num) post :
  k ∉ pre.*1 -> own_property (pre ++ (k, x) :: post)%list k = Some x.
Proof.
  intros Hk. rewrite own_property_app, own_property_None by done.
  cbn [own_property]. by rewrite String.eqb_refl.
Qed.

Lemma verify_keys_all {T} (fn : IsA T) key pre suf (vs : list (string * T)) :
  NoDup (pre ++ suf)%list.*1 ->
  Forall2 (accepts fn key) suf vs ->
  verify_keys fn {| ctx_key := key; ctx_value := Data (JObj (pre ++ suf)%list) |}
    suf.*1
  = Verified (without_proto vs).
Proof.
  intros Hnd Hall. revert pre Hnd.
  induction Hall as [|[k x] [k' v] suf vs [Hk Hv] _ IH]; intros pre Hnd; [done |].
  cbn [fst snd] in Hk, Hv. subst k'.
  cbn [fmap list_fmap fst verify_keys]. unfold at_key.
  rewrite fmap_app in Hnd. apply NoDup_app in Hnd as (Hpre & Hdis & Hsuf).
  rewrite (isIn_own key _ k x).
  2:{ apply own_property_middle. intros Hin. apply (Hdis k Hin). left. }
  cbn [checked_bind]. rewrite Hv. cbn [checked_bind].
  replace (pre ++ (k, x) :: suf)%list with ((pre ++ [(k, x)]) ++ suf)%list
    by (by rewrite <- app_assoc).
  rewrite IH.
  - cbn [checked_bind without_proto List.filter fst].
    by destruct (String.eqb k "__proto__").
  - rewrite <- app_assoc, fmap_app. apply NoDup_app. done.
Qed.

Lemma without_proto_id {T} (vs : list (string * T)) :
  "__proto__" ∉ vs.*1 -> without_proto vs = vs.
Proof.
  induction vs as [|[k v] vs IH]; [done |].
  cbn [fmap list_fmap fst]. intros Hk. apply not_elem_of_cons in Hk as [Hne Hk].
  cbn [without_proto List.filter fst].
  destruct (String.eqb_spec k "__proto__") as [-> |]; [done |].
  cbn [negb]. f_equal. by apply IH.
Qed.

Lemma verify_keys_first_failure {T} (fn : IsA T) key pre good (k : string)
    (x : json num) post (e : TvError) :
  NoDup (pre ++ good ++ (k, x) :: post)%list.*1 ->
  Forall (fun p => exists v, fn (property_context key p.1 p.2) = Verified v)
    good ->
  fn (property_context key k x) = Rejected e ->
  verify_keys fn
    {| ctx_key := key;
       ctx_value := Data (JObj (pre ++ good ++ (k, x) :: post)%list) |}
    (good ++ (k, x) :: post)%list.*1
  = Rejected e.
Proof.
  intros Hnd Hgood He. revert pre Hnd.
  induction Hgood as [|[k' y] good [v Hv] _ IH]; intros pre Hnd.
  - cbn [app fmap list_fmap fst verify_keys]. unfold at_key.
    rewrite (isIn_own key _ k x).
    2:{ apply own_property_middle. rewrite fmap_app in Hnd.
        apply NoDup_app in Hnd as (_ & Hdis & _).
        intros Hin. apply (Hdis k Hin). left. }
    cbn [checked_bind]. by rewrite He.
  - cbn [app fmap list_fmap fst snd verify_keys] in *. unfold at_key.
    rewrite (isIn_own key _ k' y).
    2:{ apply own_property_middle. rewrite fmap_app in Hnd.
        apply NoDup_app in Hnd as (_ & Hdis & _).
        intros Hin. apply (Hdis k' Hin). left. }
    cbn [checked_bind]. rewrite Hv. cbn [checked_bind].
    replace (pre ++ (k', y) :: good ++ (k, x) :: post)%list
      with ((pre ++ [(k', y)]) ++ good ++ (k, x) :: post)%list
      by (by rewrite <- app_assoc).
    rewrite IH; [done |]. by rewrite <- app_assoc.
Qed.

(** X20.  [isObjectMap(fn)] checks the properties of an object in the
    order of its keys, each under the key path of the object followed
    by the key, with a dot between them unless the path is empty.  When
    [fn] accepts every value it returns the results under the same
    keys, except that a key [__proto__] is checked but gets no property
    in the result; otherwise it throws, unchanged, the error [fn]
    throws for the first value it does not accept.  What is no object
    (null included) is rejected as such. *)
Theorem isObjectMap_all_or_first_failure {T} (fn : IsA T) key m :
  NoDup m.*1 ->
  (forall vs, Forall2 (accepts fn key) m vs ->
     isObjectMap fn {| ctx_key := key; ctx_value := Data (JObj m) |}
     = Verified (without_proto vs)
     /\ ("__proto__" ∉ m.*1 -> without_proto vs = vs))
  /\ (forall good k x post e, m = (good ++ (k, x) :: post)%list ->
        Forall (fun p => exists v, fn (property_context key p.1 p.2) = Verified v)
          good ->
        fn (property_context key k x) = Rejected e ->
        isObjectMap fn {| ctx_key := key; ctx_value := Data (JObj m) |}
        = Rejected e)
  /\ (forall v text, is_object v = false -> to_string v = Some text ->
        isObjectMap fn {| ctx_key := key; ctx_value := v |}
        = Rejected (new_TvError {| ctx_key := key; ctx_value := v |}
                      "object" text)).
Proof.
  intros Hnd. split; [| split].
  - intros vs Hall. split.
    + unfold isObjectMap. cbn [ctx_value is_object object_keys].
      by apply (verify_keys_all fn key [] m vs).
    + intros Hp. apply without_proto_id.
      assert (vs.*1 = m.*1) as ->; [| done].
      clear Hnd Hp. induction Hall as [|[k x] [k' v] m vs [Hk _] _ IH]; [done |].
      cbn [fst] in Hk. cbn. by rewrite IH, Hk.
  - intros good k x post e -> Hgood He. unfold isObjectMap.
    cbn [ctx_value is_object object_keys].
    by apply (verify_keys_first_failure fn key [] good k x post e).
  - intros v text Hv Ht. unfold isObjectMap. cbn [ctx_value]. rewrite Hv.
    by apply throw_printable.
Qed.

(** ** Records *)

Lemma field_own {T} (fn : IsA T) key m (name : string) (x : json num) :
  own_property m name = Some x ->
  field fn {| ctx_key := key; ctx_value := Data (JObj m) |} name
  = fn (property_context key name x).
Proof. intros H. unfold field, at_key. by rewrite (isIn_own key m name x H). Qed.

Lemma field_missing {T} (fn : IsA T) key m (name : string) :
  own_property m name = None -> member (JObj m) name = Data JUndefined ->
  field fn {| ctx_key := key; ctx_value := Data (JObj m) |} name
  = fn (property_context key name JUndefined).
Proof.
  intros H Hm. unfold field, at_key. by rewrite (isIn_missing key m name H Hm).
Qed.

Lemma optional_field {T} (fn : IsA T) (enc : T -> json num) key m
    (name : string) (o : option T) :
  own_property m name = enc <$> o ->
  member (JObj m) name = Data JUndefined ->
  (forall x, o = Some x ->
     fn (property_context key name (enc x)) = Verified x) ->
  (forall v, fn (property_context key name JUndefined) <> Verified v) ->
  field (isMaybe fn) {| ctx_key := key; ctx_value := Data (JObj m) |} name
  = Verified o.
Proof.
  intros Hown Hm Hsome Hnone. destruct o as [x|]; cbn in Hown.
  - rewrite (field_own _ key m name (enc x) Hown).
    by apply isMaybe_present, Hsome.
  - rewrite (field_missing _ key m name Hown Hm). by apply isMaybe_missing.
Qed.

Lemma own_property_prop (n k : string) (x : json num) :
  own_property (prop n x) k = if String.eqb n k then Some x else None.
Proof. reflexivity. Qed.

Lemma own_property_opt_prop {T} (n k : string) (enc : T -> json num)
    (o : option T) :
  own_property (opt_prop n enc o) k
  = if String.eqb n k then enc <$> o else None.
Proof. destruct o; cbn; by destruct (String.eqb n k). Qed.

(** What the verifiers make of undefined. *)
Lemma field_of_undefined {T} (fn : IsA T) key (name : string) (v : T) :
  field fn {| ctx_key := key; ctx_value := Data JUndefined |} name <> Verified v.
Proof. done. Qed.

Lemma isString_of_string key (s : string) :
  isString {| ctx_key := key; ctx_value := Data (JStr s) |} = Verified s.
Proof. reflexivity. Qed.

Lemma isArrayOf_of_list {T} (fn : IsA T) (enc : T -> json num) key
    (l : list T) :
  (forall key' x, fn {| ctx_key := key'; ctx_value := Data (enc x) |}
                  = Verified x) ->
  isArrayOf fn {| ctx_key := key; ctx_value := Data (JArr (enc <$> l)) |}
  = Verified l.
Proof.
  intros Hfn. unfold isArrayOf. cbn [ctx_value].
  apply verify_items_all; [by rewrite length_fmap | | done].
  intros j x v Hx Hv. cbn [Nat.add] in Hx.
  rewrite list_lookup_fmap, Hv in Hx. injection Hx as <-. apply Hfn.
Qed.

Lemma keys_of_dict (d : list (string * string)) :
  (prod_map id (JStr (num := num)) <$> d).*1 = d.*1.
Proof. induction d as [|[k v] d IH]; [done |]. cbn. by rewrite IH. Qed.

Lemma isObjectMap_of_dict key (d : list (string * string)) :
  distinct_keys d ->
  isObjectMap isString {| ctx_key := key; ctx_value := Data (json_of_dict d) |}
  = Verified d.
Proof.
  intros [Hnd Hp]. unfold isObjectMap, json_of_dict.
  cbn [ctx_value is_object object_keys].
  refine (eq_trans (verify_keys_all isString key [] _ d _ _)
            (f_equal Verified (without_proto_id d Hp))).
  - cbn [app]. by rewrite keys_of_dict.
  - clear Hnd Hp. induction d as [|[k v] d IH]; constructor; [done | apply IH].
Qed.

Section Button.

Hypothesis Hreads : reads_own_properties.

Ltac inherits_nothing :=
  apply Hreads; apply (bool_decide_unpack _); reflexivity.

Lemma isArgumentSchema_of_argument key (a : ArgumentSchema) :
  isArgumentSchema {| ctx_key := key; ctx_value := Data (json_of_argument a) |}
  = Verified a.
Proof.
  unfold isArgumentSchema, json_of_argument.
  rewrite (field_own _ key _ "key" (JStr (arg_key a))) by reflexivity.
  cbn [checked_bind isString property_context ctx_value].
  rewrite (field_own _ key _ "info" (JStr (arg_info a))) by reflexivity.
  cbn [checked_bind isString property_context ctx_value].
  rewrite (optional_field (isArrayOf isString) json_of_strings key _ "values"
             (arg_values a)).
  - by destruct a.
  - rewrite !own_property_app, !own_property_prop, own_property_opt_prop.
    reflexivity.
  - inherits_nothing.
  - intros x _. by apply isArrayOf_of_list.
  - done.
Qed.

Lemma isHttpCallRequest_of_request key (r : VerifiedRequest) :
  wf_request r ->
  isHttpCallRequest {| ctx_key := key; ctx_value := Data (json_of_request r) |}
  = Verified r.
Proof.
  intros Hwf. unfold isHttpCallRequest, json_of_request.
  rewrite (field_own _ key _ "method" (JStr (v_method r))) by reflexivity.
  cbn [checked_bind isString property_context ctx_value].
  rewrite (field_own _ key _ "url" (JStr (v_url r))) by reflexivity.
  cbn [checked_bind isString property_context ctx_value].
  rewrite (optional_field (isObjectMap isString) json_of_dict key _ "headers"
             (v_headers r)).
  2:{ rewrite !own_property_app, !own_property_prop, !own_property_opt_prop.
      cbn. by destruct (v_headers r). }
  2: inherits_nothing.
  2:{ intros x Hx. unfold wf_request in Hwf. rewrite Hx in Hwf.
      by apply isObjectMap_of_dict. }
  2: done.
  cbn [checked_bind].
  rewrite (optional_field isString JStr key _ "body" (v_body r)).
  2:{ rewrite !own_property_app, !own_property_prop, !own_property_opt_prop.
      cbn. by destruct (v_headers r), (v_body r). }
  2: inherits_nothing.
  2: done.
  2: done.
  cbn [checked_bind].
  rewrite (optional_field isString JStr key _ "mode" (v_mode r)).
  2:{ rewrite !own_property_app, !own_property_prop, !own_property_opt_prop.
      cbn. by destruct (v_headers r), (v_body r), (v_mode r). }
  2: inherits_nothing.
  2: done.
  2: done.
  by destruct r.
Qed.

Ltac named := apply (bool_decide_unpack _); reflexivity.

Ltac reads_property :=
  match goal with
  | H : forall name, _ -> own_property _ name = _ |- own_property _ ?n = _ =>
      rewrite (H n) by named;
      unfold button_properties;
      rewrite !own_property_app, ?own_property_prop, !own_property_opt_prop;
      cbn [String.eqb Ascii.eqb Bool.eqb andb]
  end.

(** X21.  [isPanelButton] returns a button as it was written: applied
    to the object that holds the properties of [b], a missing optional
    property being left out, it returns [b].  Properties under other
    names are not looked at, whatever they hold, so a misspelt property
    name goes unnoticed. *)
Theorem isPanelButton_round_trip key (b : VerifiedButton)
    (extra : list (string * json num)) :
  wf_button b ->
  (forall k, k ∈ extra.*1 -> k ∉ button_property_names) ->
  isPanelButton
    {| ctx_key := key;
       ctx_value := Data (JObj (button_properties b ++ extra)%list) |}
  = Verified b.
Proof.
  intros [Hset Hreq] Hextra.
  assert (forall name, name ∈ button_property_names ->
            own_property extra name = None) as Hnone.
  { intros name Hin. apply own_property_None. intros Hex.
    by apply (Hextra name Hex). }
  destruct b as [text is' set' setList' args proxyUrl' repeat' repeatInitial'
                   column' showOutput' request' command' commandUrl'
                   isPersisted'].
  cbn [v_set v_request] in Hset, Hreq.
  set (b := Build_VerifiedButton _ _ _ _ _ _ _ _ _ _ _ _ _ _).
  set (m := (button_properties b ++ extra)%list).
  assert (forall name, name ∈ button_property_names ->
            own_property m name
            = own_property (button_properties b) name) as Hown.
  { intros name Hin. unfold m. rewrite own_property_app, (Hnone name Hin).
    by destruct (own_property (button_properties b) name). }
  clearbody m. clear Hnone Hextra.
  unfold isPanelButton.
  rewrite (field_own _ key m "text" (JStr text)) by (by reads_property).
  cbn [checked_bind isString property_context ctx_value].
  rewrite (optional_field isString JStr key m "is" is');
    [| reads_property; by destruct is' | inherits_nothing | done | done].
  cbn [checked_bind].
  rewrite (optional_field (isObjectMap isString) json_of_dict key m "set" set');
    [| reads_property; by destruct set' | inherits_nothing
     | intros x ->; by apply isObjectMap_of_dict | done].
  cbn [checked_bind].
  rewrite (optional_field (isArrayOf isString) json_of_strings key m "setList"
             setList');
    [| reads_property; by destruct setList' | inherits_nothing
     | intros x _; by apply isArrayOf_of_list | done].
  cbn [checked_bind].
  rewrite (optional_field (isArrayOf isArgumentSchema)
             (fun xs => JArr (json_of_argument <$> xs)) key m "arguments" args);
    [| reads_property; by destruct args | inherits_nothing
     | intros x _; apply isArrayOf_of_list;
       intros; apply isArgumentSchema_of_argument
     | done].
  cbn [checked_bind].
  rewrite (optional_field isString JStr key m "proxyUrl" proxyUrl');
    [| reads_property; by destruct proxyUrl' | inherits_nothing | done | done].
  cbn [checked_bind].
  rewrite (optional_field isNumber JNum key m "repeat" repeat');
    [| reads_property; by destruct repeat' | inherits_nothing | done | done].
  cbn [checked_bind].
  rewrite (optional_field isNumber JNum key m "repeatInitial" repeatInitial');
    [| reads_property; by destruct repeatInitial' | inherits_nothing | done
     | done].
  cbn [checked_bind].
  rewrite (optional_field isNumber JNum key m "column" column');
    [| reads_property; by destruct column' | inherits_nothing | done | done].
  cbn [checked_bind].
  rewrite (optional_field isBoolean JBool key m "showOutput" showOutput');
    [| reads_property; by destruct showOutput' | inherits_nothing | done
     | done].
  cbn [checked_bind].
  rewrite (optional_field isHttpCallRequest json_of_request key m "request"
             request');
    [| reads_property; by destruct request' | inherits_nothing
     | intros x ->; by apply isHttpCallRequest_of_request | done].
  cbn [checked_bind].
  rewrite (optional_field isString JStr key m "command" command');
    [| reads_property; by destruct command' | inherits_nothing | done | done].
  cbn [checked_bind].
  rewrite (optional_field isString JStr key m "commandUrl" commandUrl');
    [| reads_property; by destruct commandUrl' | inherits_nothing | done
     | done].
  cbn [checked_bind].
  rewrite (optional_field isBoolean JBool key m "isPersisted" isPersisted');
    [| reads_property; by destruct isPersisted' | inherits_nothing | done
     | done].
  reflexivity.
Qed.

End Button.

End VerifierFacts.

(** ** The repository's tests of the verifier, on the model *)

Example test_glues_keys :
  (e ← match isObjectMap (isArrayOf (isObjectMap (isArrayOf isNumber)))
               {| ctx_key := None;
                  ctx_value :=
                    Data (JObj [("z", JArr [JObj [("a", JArr [JNum 1; JNum 2])];
                                            JObj [("b", JArr [JNum 3; JNum 4])];
                                            JObj [("c", JArr [JNum 5; JStr "six"])]])]) |}
       with
       | Rejected e => Some e
       | _ => None
       end;
   Some (err_key e, err_expected e, err_observed e))
  = Some ("z[2].c[1]", "number", Data (JStr "six")).
Proof. reflexivity. Qed.

Example test_field_key :
  (e ← match field isNumber
               {| ctx_key := None; ctx_value := Data (JObj [("x", JStr "hi")]) |}
               "x"
       with
       | Rejected e => Some e
       | _ => None
       end;
   Some (err_key e, err_expected e, err_observed e))
  = Some ("x", "number", Data (JStr "hi")).
Proof. reflexivity. Qed.

Example test_isOneOf_same_key :
  (e ← match isOneOf [ (fun c => checked_bind (isNumber c) (fun n => Verified (inl n)));
                       (fun c => checked_bind (isString c) (fun s => Verified (inr s))) ]
               {| ctx_key := None; ctx_value := Data (JBool true) |}
       with
       | Rejected e => Some e
       | _ => None
       end;
   Some (err_expected e, err_observed e))
  = Some ("number | string", Data (JBool true)).
Proof. reflexivity. Qed.

Example test_isOneOf_nested_key :
  (e ← match isOneOf
               [ (fun c => checked_bind (field (isConstant (CStr "a")) c "type") (fun t =>
                           checked_bind (field isNumber c "x") (fun x =>
                           Verified (t, x))));
                 (fun c => checked_bind (field (isConstant (CStr "b")) c "type") (fun t =>
                           checked_bind (field isNumber c "x") (fun x =>
                           Verified (t, x)))) ]
               {| ctx_key := None;
                  ctx_value := Data (JObj [("type", JStr "c"); ("x", JNum 5)]) |}
       with
       | Rejected e => Some e
       | _ => None
       end;
   Some (err_expected e))
  = Some ("[At key-path `type`, expected `a` but was given `string` (c).] | [At key-path `type`, expected `b` but was given `string` (c).]").
Proof. reflexivity. Qed.

(** A property written under the key [__proto__] is checked and then
    lost. *)
Example isObjectMap_drops_proto :
  isObjectMap isString
    {| ctx_key := Some "set";
       ctx_value := Data (JObj [("__proto__", JStr "p"); ("a", JStr "1")]) |}
  = Verified [("a", "1")]
  /\ isObjectMap isString
       {| ctx_key := Some "set";
          ctx_value := Data (JObj [("__proto__", JNum 5); ("a", JStr "1")]) |}
     = Rejected {| err_key := "set.__proto__"; err_expected := "string";
                   err_observed := Data (JNum 5);
                   err_message := "At key-path `set.__proto__`, expected `string` but was given `number` (5)." |}.
Proof. split; reflexivity. Qed.

Lemma isArrayOf_all_or_first_failure_witness :
  isArrayOf isString
    {| ctx_key := Some "setList";
       ctx_value := Data (JArr [JStr "a"; JNum 5; JBool true]) |}
  = Rejected {| err_key := "setList[1]"; err_expected := "string";
                err_observed := Data (JNum 5);
                err_message := "At key-path `setList[1]`, expected `string` but was given `number` (5)." |}.
Proof.
  refine (proj1 (proj2 (isArrayOf_all_or_first_failure isString (Some "setList")
                          [JStr "a"; JNum 5; JBool true]))
            1%nat (JNum 5) _ _ _ _).
  - reflexivity.
  - intros [|j] y Hj Hy; [| lia]. injection Hy as <-. by exists "a".
  - reflexivity.
Defined.

Lemma isOneOf_first_success_or_all_names_witness :
  isOneOf [ (fun c => checked_bind (isNull c) (fun _ => Verified None));
            (fun c => checked_bind (isNumber c) (fun n => Verified (Some n))) ]
    {| ctx_key := Some "results.code"; ctx_value := Data (JStr "0") |}
  = Rejected {| err_key := "results.code"; err_expected := "null | number";
                err_observed := Data (JStr "0");
                err_message := "At key-path `results.code`, expected `null | number` but was given `string` (0)." |}.
Proof.
  refine (eq_trans
            (proj2 (isOneOf_first_success_or_all_names _ _)
               [ new_TvError {| ctx_key := Some "results.code";
                                ctx_value := Data (JStr "0") |} "null" "0";
                 new_TvError {| ctx_key := Some "results.code";
                                ctx_value := Data (JStr "0") |} "number" "0" ]
               "0" _ _) _).
  - reflexivity.
  - repeat constructor.
  - reflexivity.
Defined.

Lemma isMaybe_missing_or_present_witness :
  isMaybe isString {| ctx_key := Some "is"; ctx_value := Data JNull |}
  = Rejected {| err_key := "is"; err_expected := "string | undefined";
                err_observed := Data JNull;
                err_message := "At key-path `is`, expected `string | undefined` but was given `object` (null)." |}.
Proof.
  refine (eq_trans
            (proj2 (proj2 (isMaybe_missing_or_present isString
                             {| ctx_key := Some "is"; ctx_value := Data JNull |}))
               (new_TvError {| ctx_key := Some "is"; ctx_value := Data JNull |}
                  "string" "null") "null" _ _ _) _).
  - discriminate.
  - reflexivity.
  - reflexivity.
  - reflexivity.
Defined.

Lemma unprintable_value_is_not_reported_witness :
  isString {| ctx_key := Some "name";
              ctx_value := Data (JObj [("toString", JNum 1)]) |}
  = Crashed.
Proof.
  refine (proj1 (unprintable_value_is_not_reported
                   {| ctx_key := Some "name";
                      ctx_value := Data (JObj [("toString", JNum 1)]) |} _)).
  reflexivity.
Defined.

Lemma isObjectMap_all_or_first_failure_witness :
  isObjectMap isString
    {| ctx_key := Some "request.headers";
       ctx_value := Data (JObj [("Accept", JStr "*/*"); ("Age", JNum 3)]) |}
  = Rejected {| err_key := "request.headers.Age"; err_expected := "string";
                err_observed := Data (JNum 3);
                err_message := "At key-path `request.headers.Age`, expected `string` but was given `number` (3)." |}.
Proof.
  refine (proj1 (proj2 (isObjectMap_all_or_first_failure isString
                          (Some "request.headers")
                          [("Accept", JStr "*/*"); ("Age", JNum 3)] _))
            [("Accept", JStr "*/*")] "Age" (JNum 3) [] _ _ _ _).
  - apply (bool_decide_unpack _). reflexivity.
  - reflexivity.
  - repeat constructor. by exists "*/*".
  - reflexivity.
Defined.

Lemma isPanelButton_round_trip_witness :
  isPanelButton
    {| ctx_key := None;
       ctx_value :=
         Data (JObj [("text", JStr "Run"); ("is", JStr "T");
                     ("set", JObj [("a", JStr "1")]); ("repeat", JNum 5);
                     ("comand", JStr "ls")]) |}
  = Verified {| v_text := "Run"; v_is := Some "T"; v_set := Some [("a", "1")];
                v_setList := None; v_arguments := None; v_proxyUrl := None;
                v_repeat := Some 5; v_repeatInitial := None; v_column := None;
                v_showOutput := None; v_request := None; v_command := None;
                v_commandUrl := None; v_isPersisted := None |}.
Proof.
  apply (isPanelButton_round_trip (num := N)) with
    (key := None)
    (b := {| v_text := "Run"; v_is := Some "T"; v_set := Some [("a", "1")];
             v_setList := None; v_arguments := None; v_proxyUrl := None;
             v_repeat := Some 5; v_repeatInitial := None; v_column := None;
             v_showOutput := None; v_request := None; v_command := None;
             v_commandUrl := None; v_isPersisted := None |})
    (extra := [("comand", JStr "ls")]).
  - intros m k Hin. cbn [member example_engine].
    destruct (String.eqb_spec k "constructor") as [-> |]; [| done].
    by apply (bool_decide_pack _) in Hin.
  - repeat split; try (apply (bool_decide_unpack _); reflexivity).
  - intros k Hk. cbn in Hk. apply elem_of_cons in Hk as [-> | Hk]; [| by apply elem_of_nil in Hk].
    apply (bool_decide_unpack _). reflexivity.
Defined.
